(** * Go-Flappy-Bird-Clone: the per-frame update of [main.go]

    A shallow embedding of [Game.reset], [Game.spawnPipe] and [Game.Update]
    together with the properties of the frame step: phases, physics, the
    clamp at floor and ceiling, pipe spawning, scoring, collision and
    retirement.

    Number model.
    - [float64] fields are rationals [Q].  Every value the program stores is
      an integer multiple of [1/2] of small magnitude (see
      [reachable_exact] below), so the IEEE-754 operations of the source
      are exact on them and agree with the rational ones.
    - [int] is the 64-bit signed integer of the usual Go targets; the one
      arithmetic operation on it that can leave the range, [g.score++], is
      written with its wrap-around ([wrapInt]).
    - The untyped integer constants of the source are [Z]; they are
      converted with [inject_Z] where the source uses them as [float64]. *)

From Stdlib Require Import ZArith QArith Bool List Lia Lqa.
Import ListNotations.
From Stdlib Require String Decimal DecimalString DecimalZ DecimalPos.
Import String.StringSyntax.
Delimit Scope string_scope with string.

Open Scope Q_scope.

(** ** Constants (main.go, lines 16-30) *)

Definition screenWidth : Z := 500.
Definition screenHeight : Z := 500.
Definition birdSize : Z := 20.
Definition gravity : Q := 1 # 2.
Definition jumpStrength : Z := -6.
Definition pipeWidth : Z := 50.
Definition pipeGap : Z := 150.
Definition pipeSpeed : Z := 2.
Definition pipeSpacing : Z := 250.

(** The bird's fixed horizontal centre, [screenWidth/2] (constant integer
    division, truncating). *)
Definition centerX : Z := (screenWidth ÷ 2)%Z.

(** The largest vertical position of the bird, [screenHeight-birdSize]. *)
Definition floorY : Z := (screenHeight - birdSize)%Z.

(** ** Numbers *)

(** Comparisons of the source on [float64], as booleans. *)
Definition Qleb (a b : Q) : bool := Qle_bool a b.
Definition Qltb (a b : Q) : bool := negb (Qle_bool b a).
Definition Qgeb (a b : Q) : bool := Qle_bool b a.
Definition Qgtb (a b : Q) : bool := negb (Qle_bool a b).

(** Go's [int]: 64 bits, two's complement. *)
Definition intBits : Z := 64.
Definition maxInt : Z := (2 ^ (intBits - 1) - 1)%Z.
Definition minInt : Z := (- 2 ^ (intBits - 1))%Z.
Definition wrapInt (z : Z) : Z :=
  ((z + 2 ^ (intBits - 1)) mod 2 ^ intBits - 2 ^ (intBits - 1))%Z.

(** ** Data (main.go, lines 47-63) *)

Record Pipe : Type := mkPipe {
  x : Q;
  height : Q;
  passed : bool
}.

Record Game : Type := mkGame {
  birdY : Q;
  birdVelocity : Q;
  pipes : list Pipe;
  score : Z;
  gameOver : bool;
  started : bool;
  nextPipeSpawn : Q
}.

(** What one call of [Update] reads from outside the [Game]: the two polled
    keys and the raw value the generator would hand out next ([draw] is
    consumed only by a frame that spawns a pipe). *)
Record Input : Type := mkInput {
  keySpace : bool;
  keyR : bool;
  draw : Z
}.

(** The three phases of the specification, read off the two flags in the
    order [Update] tests them. *)
Inductive Phase : Type := NotStarted | Running | GameOver.

Definition phase (g : Game) : Phase :=
  if negb (started g) then NotStarted
  else if gameOver g then GameOver
  else Running.

(** Field updates. *)
Definition set_birdY (v : Q) (g : Game) : Game :=
  mkGame v (birdVelocity g) (pipes g) (score g) (gameOver g) (started g)
         (nextPipeSpawn g).
Definition set_birdVelocity (v : Q) (g : Game) : Game :=
  mkGame (birdY g) v (pipes g) (score g) (gameOver g) (started g)
         (nextPipeSpawn g).
Definition set_pipes (v : list Pipe) (g : Game) : Game :=
  mkGame (birdY g) (birdVelocity g) v (score g) (gameOver g) (started g)
         (nextPipeSpawn g).
Definition set_score (v : Z) (g : Game) : Game :=
  mkGame (birdY g) (birdVelocity g) (pipes g) v (gameOver g) (started g)
         (nextPipeSpawn g).
Definition set_gameOver (v : bool) (g : Game) : Game :=
  mkGame (birdY g) (birdVelocity g) (pipes g) (score g) v (started g)
         (nextPipeSpawn g).
Definition set_started (v : bool) (g : Game) : Game :=
  mkGame (birdY g) (birdVelocity g) (pipes g) (score g) (gameOver g) v
         (nextPipeSpawn g).
Definition set_nextPipeSpawn (v : Q) (g : Game) : Game :=
  mkGame (birdY g) (birdVelocity g) (pipes g) (score g) (gameOver g)
         (started g) v.

(** ** [Game.reset] (lines 66-74) *)

Definition reset (g : Game) : Game :=
  set_nextPipeSpawn (inject_Z screenWidth)
    (set_started false
      (set_gameOver false
        (set_score 0%Z
          (set_pipes []
            (set_birdVelocity 0
              (set_birdY (inject_Z (screenHeight ÷ 2)) g)))))).

(** The [Game] that [main] hands to the engine: the zero value, reset. *)
Definition zeroGame : Game := mkGame 0 0 [] 0%Z false false 0.
Definition initGame : Game := reset zeroGame.

(** ** [Game.spawnPipe] (lines 80-83) *)

(** [rng.Intn(n)] of math/rand for a positive [n]: a value of the half-open
    interval from 0 to [n], here the generator's raw value reduced modulo
    [n]. *)
Definition Intn (n raw : Z) : Z := (raw mod n)%Z.

Definition spawnPipe (raw : Z) (g : Game) : Game :=
  let topHeight :=
    inject_Z (Intn (screenHeight - pipeGap - birdSize * 2) raw + birdSize) in
  set_pipes (pipes g ++ [mkPipe (inject_Z screenWidth) topHeight false]) g.

(** ** [Game.Update] (lines 86-154) *)

(** Lines 104-106: a held space key overwrites the velocity. *)
Definition jump (i : Input) (g : Game) : Game :=
  if keySpace i then set_birdVelocity (inject_Z jumpStrength) g else g.

(** Lines 109-110: gravity, then the position. *)
Definition integrate (g : Game) : Game :=
  let g1 := set_birdVelocity (birdVelocity g + gravity) g in
  set_birdY (birdY g1 + birdVelocity g1) g1.

(** Lines 113-116. *)
Definition hitGround (g : Game) : Game :=
  if Qgtb (birdY g) (inject_Z floorY)
  then set_gameOver true (set_birdY (inject_Z floorY) g)
  else g.

(** Lines 119-122. *)
Definition hitTop (g : Game) : Game :=
  if Qltb (birdY g) 0
  then set_gameOver true (set_birdY 0 g)
  else g.

(** Lines 125-129. *)
Definition spawnStep (i : Input) (g : Game) : Game :=
  let g1 :=
    if Qleb (nextPipeSpawn g) 0
    then set_nextPipeSpawn (inject_Z pipeSpacing) (spawnPipe (draw i) g)
    else g in
  set_nextPipeSpawn (nextPipeSpawn g1 - inject_Z pipeSpeed) g1.

(** Line 136: the scoring test, on a pipe that has already been moved. *)
Definition crossing (p : Pipe) : bool :=
  negb (passed p) && Qltb (x p + inject_Z pipeWidth) (inject_Z centerX).

(** Lines 142-143: the collision test, on a pipe that has already been
    moved and the bird at height [y]. *)
Definition collides (y : Q) (p : Pipe) : bool :=
  (Qgeb (inject_Z centerX) (x p)
   && Qleb (inject_Z centerX) (x p + inject_Z pipeWidth))
  && (Qleb y (height p)
      || Qgeb (y + inject_Z birdSize) (height p + inject_Z pipeGap)).

(** Line 133. *)
Definition movePipe (p : Pipe) : Pipe :=
  mkPipe (x p - inject_Z pipeSpeed) (height p) (passed p).

(** Lines 132-146: the loop over [g.pipes]; the bird does not move while it
    runs, the score and the game-over flag are threaded through. *)
Fixpoint pipeLoop (y : Q) (ps : list Pipe) (sc : Z) (over : bool)
  : list Pipe * Z * bool :=
  match ps with
  | [] => ([], sc, over)
  | p :: rest =>
      let p1 := movePipe p in
      let sc1 := if crossing p1 then wrapInt (sc + 1) else sc in
      let p2 := if crossing p1 then mkPipe (x p1) (height p1) true else p1 in
      let over1 := if collides y p2 then true else over in
      let '(rest', sc', over') := pipeLoop y rest sc1 over1 in
      (p2 :: rest', sc', over')
  end.

Definition pipesStep (g : Game) : Game :=
  let '(ps, sc, over) := pipeLoop (birdY g) (pipes g) (score g) (gameOver g) in
  set_gameOver over (set_score sc (set_pipes ps g)).

(** Lines 149-151. *)
Definition retire (g : Game) : Game :=
  match pipes g with
  | p :: rest =>
      if Qltb (x p + inject_Z pipeWidth) 0 then set_pipes rest g else g
  | [] => g
  end.

(** The body of a frame in the running phase, lines 104-151. *)
Definition runFrame (i : Input) (g : Game) : Game :=
  retire (pipesStep (spawnStep i (hitTop (hitGround (integrate (jump i g)))))).

(** [Update] always returns a nil error; the embedding returns the new
    [Game]. *)
Definition Update (g : Game) (i : Input) : Game :=
  if negb (started g) then
    (if keySpace i then set_started true g else g)
  else if gameOver g then
    (if keyR i then reset g else g)
  else runFrame i g.

(** A run: one [Update] per input, in order. *)
Definition run (g : Game) (ins : list Input) : Game := fold_left Update ins g.

(** The states the program can be in between two frames. *)
Inductive reachable : Game -> Prop :=
| reach_init : reachable initGame
| reach_step g i : reachable g -> reachable (Update g i).

(** * Notions used in the statements *)

(** The two clamps of lines 113-122 as one function of the position. *)
Definition clampY (y : Q) : Q :=
  if Qgtb y (inject_Z floorY) then inject_Z floorY
  else if Qltb y 0 then 0 else y.

(** Whether one of the two clamps fires at position [y]. *)
Definition outOfField (y : Q) : bool :=
  Qgtb y (inject_Z floorY) || Qltb y 0.

(** The vertical positions at which the whole bird is on screen. *)
Definition inField (y : Q) : Prop := 0 <= y <= inject_Z floorY.

(** What lines 133-139 do to one pipe. *)
Definition stepPipe (p : Pipe) : Pipe :=
  let p1 := movePipe p in
  if crossing p1 then mkPipe (x p1) (height p1) true else p1.

(** [g.score++], [n] times. *)
Definition bump (n : nat) (sc : Z) : Z :=
  Nat.iter n (fun s => wrapInt (s + 1)) sc.

(** The pipes of [ps] that are scored by the frame that moves them. *)
Definition crossers (ps : list Pipe) : list Pipe :=
  filter (fun p => crossing (movePipe p)) ps.

(** The pipes a running frame loops over: those of the state, plus the new
    one when the countdown has run out. *)
Definition framePipes (i : Input) (g : Game) : list Pipe :=
  pipes (spawnStep i g).

(** The pipe [spawnPipe] makes out of the raw draw. *)
Definition newPipe (raw : Z) : Pipe :=
  mkPipe (inject_Z screenWidth)
    (inject_Z (Intn (screenHeight - pipeGap - birdSize * 2) raw + birdSize))
    false.

(** Lines 149-151 on the list alone. *)
Definition retirePipes (ps : list Pipe) : list Pipe :=
  match ps with
  | p :: rest => if Qltb (x p + inject_Z pipeWidth) 0 then rest else ps
  | [] => []
  end.

(** The pipes that have not been scored yet. *)
Definition unscored (ps : list Pipe) : nat :=
  length (filter (fun p => negb (passed p)) ps).

(** The frame that performs a reset. *)
Definition resets (g : Game) (i : Input) : bool :=
  started g && gameOver g && keyR i.

(** A run inside one session: none of its frames performs a reset. *)
Fixpoint noReset (g : Game) (ins : list Input) : Prop :=
  match ins with
  | [] => True
  | i :: rest => resets g i = false /\ noReset (Update g i) rest
  end.

(** In a reachable state the flag of a pipe says whether its trailing edge
    is left of the bird's centre. *)
Definition flagged (p : Pipe) : Prop :=
  passed p = Qltb (x p + inject_Z pipeWidth) (inject_Z centerX).

(** The pipes on screen that have been scored. *)
Definition scored (ps : list Pipe) : nat := length (filter passed ps).

(** The number of pipes a frame removes from the front of the list. *)
Definition retiredBy (g : Game) (i : Input) : nat :=
  match phase g with
  | Running => length (framePipes i g) - length (pipes (Update g i))
  | _ => 0
  end.

(** The number of pipes removed during a run. *)
Fixpoint retiredIn (g : Game) (ins : list Input) : nat :=
  match ins with
  | [] => 0
  | i :: rest => retiredBy g i + retiredIn (Update g i) rest
  end.

(** A player who taps the space key every 23rd frame hovers between 217 and
    250; with the draw 130 every gap spans 150 to 300. *)
Definition idle : Input := mkInput false false 130.
Definition flap : Input := mkInput true false 130.
Definition hover (n : nat) : list Input :=
  flap :: concat (repeat (flap :: repeat idle 22) n).

(** [q] is an integer multiple of one half. *)
Definition halfInteger (q : Q) : Prop := exists n : Z, 2 * q == inject_Z n.

(** [q] is an even integer. *)
Definition evenInteger (q : Q) : Prop := exists n : Z, q == 2 * inject_Z n.

(** The pipes are 250 apart, the last one 250 right of the countdown [c]. *)
Definition chain (c : Q) (ps : list Pipe) : Prop :=
  forall j p, nth_error (rev ps) j = Some p ->
    x p == c + 250 - 250 * inject_Z (Z.of_nat j).

(** A gap top as [spawnPipe] makes them. *)
Definition heightOk (p : Pipe) : Prop :=
  (exists n : Z, height p = inject_Z n) /\ 20 <= height p <= 329.

(** What holds of the numbers of a reachable state: the [float64] fields
    are multiples of one half in a small range, the pipes are 250 apart
    and on or near the screen. *)
Record exact (g : Game) : Prop := mkExact {
  exact_birdY : halfInteger (birdY g) /\ 0 <= birdY g <= 480;
  exact_velocity :
    halfInteger (birdVelocity g) /\ -6 <= birdVelocity g <= 961 # 2 /\
    (gameOver g = false -> birdVelocity g <= 480);
  exact_countdown :
    evenInteger (nextPipeSpawn g) /\ 0 <= nextPipeSpawn g <= 500 /\
    (pipes g <> [] -> nextPipeSpawn g <= 248);
  exact_chain : chain (nextPipeSpawn g) (pipes g);
  exact_left : Forall (fun p => -50 <= x p) (pipes g);
  exact_heights : Forall heightOk (pipes g)
}.

(** ** Drawing (main.go, lines 26-45 and 156-194) *)

(** [color.RGBA], four bytes. *)
Record RGBA : Type := mkRGBA { red : Z; green : Z; blue : Z; alpha : Z }.

Definition colorBackground : RGBA := mkRGBA 120 200 240 255.
Definition colorBird : RGBA := mkRGBA 255 255 0 255.
Definition colorPipe : RGBA := mkRGBA 40 140 40 255.

Definition textWindowTitle : String.string := "Go Flappy Bird Clone"%string.
Definition textStartMessage : String.string :=
  "Press SPACE to start and for jump"%string.
Definition textGameOver : String.string :=
  "Game Over! Press R to restart"%string.
Definition textScorePrefix : String.string := "Score: "%string.

Definition startMessageX : Z := (screenWidth ÷ 2 - 110)%Z.
Definition startMessageY : Z := (screenHeight ÷ 2 - 30)%Z.
Definition gameOverMessageX : Z := (screenWidth ÷ 2 - 100)%Z.
Definition gameOverMessageY : Z := (screenHeight ÷ 2)%Z.

(** What [Draw] asks of the screen, in order: [screen.Fill],
    [vector.DrawFilledRect] and [ebitenutil.DebugPrintAt].  The [float32]
    arguments are rationals: the conversions from [float64] are exact on the
    values of a reachable state. *)
Inductive DrawOp : Type :=
| Fill (clr : RGBA)
| VectorFilledRect (rx ry rw rh : Q) (clr : RGBA) (antialias : bool)
| DebugPrintAt (str : String.string) (px py : Z).

(** Lines 157-159. *)
Definition drawFilledRect (rx ry rw rh : Q) (clr : RGBA) : DrawOp :=
  VectorFilledRect rx ry rw rh clr false.

(** [strconv.Itoa]: the decimal digits, with a minus sign for a negative
    number. *)
Definition Itoa (z : Z) : String.string :=
  DecimalString.NilZero.string_of_int (Z.to_int z).

(** Line 167. *)
Definition drawBird (g : Game) : DrawOp :=
  drawFilledRect (inject_Z (screenWidth ÷ 2 - birdSize ÷ 2)) (birdY g)
                 (inject_Z birdSize) (inject_Z birdSize) colorBird.

(** Lines 172 and 174: the top block and the bottom block of one pipe. *)
Definition drawTop (pipe : Pipe) : DrawOp :=
  drawFilledRect (x pipe) 0 (inject_Z pipeWidth) (height pipe) colorPipe.
Definition drawBottom (pipe : Pipe) : DrawOp :=
  drawFilledRect (x pipe) (height pipe + inject_Z pipeGap)
                 (inject_Z pipeWidth)
                 (inject_Z screenHeight - height pipe - inject_Z pipeGap)
                 colorPipe.

(** [Game.Draw], lines 162-189. *)
Definition Draw (g : Game) : list DrawOp :=
  [Fill colorBackground]
  ++ [drawBird g]
  ++ flat_map (fun pipe => [drawTop pipe; drawBottom pipe]) (pipes g)
  ++ [DebugPrintAt (String.append textScorePrefix (Itoa (score g))) 10 10]
  ++ (if negb (started g)
      then [DebugPrintAt textStartMessage startMessageX startMessageY]
      else [])
  ++ (if gameOver g
      then [DebugPrintAt textGameOver gameOverMessageX gameOverMessageY]
      else []).

(** [Game.Layout], lines 192-194. *)
Definition Layout (g : Game) (outsideWidth outsideHeight : Z) : Z * Z :=
  (screenWidth, screenHeight).

(** Two drawn rectangles that share at least a boundary point. *)
Definition touches (a b : DrawOp) : Prop :=
  match a, b with
  | VectorFilledRect ax ay aw ah _ _, VectorFilledRect bx by_ bw bh _ _ =>
      ax <= bx + bw /\ bx <= ax + aw /\ ay <= by_ + bh /\ by_ <= ay + ah
  | _, _ => False
  end.

(** A drawn rectangle of positive size that lies between the top and the
    bottom of a [w] by [h] screen and reaches into it from the side. *)
Definition onScreen (w h : Z) (op : DrawOp) : Prop :=
  match op with
  | VectorFilledRect rx ry rw rh _ aa =>
      0 < rw /\ 0 < rh /\ 0 <= ry /\ ry + rh <= inject_Z h /\
      0 <= rx + rw /\ rx <= inject_Z w /\ aa = false
  | _ => True
  end.

(** The input of a frame on which the player presses neither key. *)
Definition quiet (j : Input) : Prop := keySpace j = false /\ keyR j = false.

(** The input of a frame on which the player holds the space key only. *)
Definition held (j : Input) : Prop := keySpace j = true /\ keyR j = false.

(** *** The pipes of a reachable state *)

(** *** The score against the number of frames *)

(** ** Drawing *)

(** *** At most one pipe is scored per frame *)

(** The pipe's span contains the bird's horizontal centre. *)
Definition overCentre (p : Pipe) : Prop :=
  x p <= inject_Z centerX <= x p + inject_Z pipeWidth.

(** While the session is not over: the bird is strictly inside the gap of
    the pipe over the centre, and has been for as long as that pipe has been
    there.  A pipe at [x] entered the column at 250 and moves 2 per frame;
    [j] frames back the bird was below the gap top as well, and has moved
    by the last [j] velocities since, each at least the current one minus
    [i/2]. *)
Definition tracked (g : Game) : Prop :=
  gameOver g = false ->
  forall p, In p (pipes g) -> overCentre p ->
    height p < birdY g /\
    birdY g + inject_Z birdSize < height p + inject_Z pipeGap /\
    forall j : nat,
      x p + inject_Z pipeSpeed * inject_Z (Z.of_nat j) <= inject_Z centerX ->
      inject_Z (Z.of_nat j) * birdVelocity g
      - inject_Z (Z.of_nat j) * (inject_Z (Z.of_nat j) - 1) * (1 # 4)
      < birdY g - height p.

(** *** The theorems above at concrete sessions *)

(** * Properties *)

(** ** Comparisons *)

Lemma Qleb_spec (a b : Q) : reflect (a <= b) (Qleb a b).
Proof.
  unfold Qleb. destruct (Qle_bool a b) eqn:E; constructor.
  - now apply Qle_bool_iff.
  - intro H. apply Qle_bool_iff in H. congruence.
Qed.

Lemma Qgeb_spec (a b : Q) : reflect (b <= a) (Qgeb a b).
Proof. exact (Qleb_spec b a). Qed.

Lemma Qltb_spec (a b : Q) : reflect (a < b) (Qltb a b).
Proof.
  unfold Qltb. destruct (Qle_bool b a) eqn:E; constructor.
  - apply Qle_not_lt. now apply Qle_bool_iff.
  - apply Qnot_le_lt. intro H. apply Qle_bool_iff in H. congruence.
Qed.

Lemma Qgtb_spec (a b : Q) : reflect (b < a) (Qgtb a b).
Proof. exact (Qltb_spec b a). Qed.

(** Case analysis on the first comparison found in the goal. *)
Ltac cmp_case :=
  match goal with
  | |- context [Qleb ?a ?b] => destruct (Qleb_spec a b)
  | |- context [Qltb ?a ?b] => destruct (Qltb_spec a b)
  | |- context [Qgeb ?a ?b] => destruct (Qgeb_spec a b)
  | |- context [Qgtb ?a ?b] => destruct (Qgtb_spec a b)
  end.

(** ** Phases *)

Lemma phase_NotStarted g : phase g = NotStarted <-> started g = false.
Proof.
  unfold phase. destruct (started g), (gameOver g); simpl;
    intuition congruence.
Qed.

Lemma phase_GameOver g :
  phase g = GameOver <-> started g = true /\ gameOver g = true.
Proof.
  unfold phase. destruct (started g), (gameOver g); simpl;
    intuition congruence.
Qed.

Lemma phase_Running g :
  phase g = Running <-> started g = true /\ gameOver g = false.
Proof.
  unfold phase. destruct (started g), (gameOver g); simpl;
    intuition congruence.
Qed.

Lemma Update_NotStarted g i :
  phase g = NotStarted ->
  Update g i = if keySpace i then set_started true g else g.
Proof. intros H%phase_NotStarted. unfold Update. now rewrite H. Qed.

Lemma Update_GameOver g i :
  phase g = GameOver -> Update g i = if keyR i then reset g else g.
Proof. intros [H1 H2]%phase_GameOver. unfold Update. now rewrite H1, H2. Qed.

Lemma Update_Running g i : phase g = Running -> Update g i = runFrame i g.
Proof. intros [H1 H2]%phase_Running. unfold Update. now rewrite H1, H2. Qed.

(** A run in the pre-start phase that never sees the space key does
    nothing. *)
Lemma run_NotStarted_idle g ins :
  phase g = NotStarted ->
  Forall (fun j => keySpace j = false) ins ->
  run g ins = g.
Proof.
  intros Hp Hall. unfold run. induction Hall as [| j js Hj _ IH]; simpl.
  - reflexivity.
  - rewrite (Update_NotStarted g j Hp), Hj. exact IH.
Qed.

(** ** C8: the game-over phase is frozen *)

(** C8. In the GameOver phase, an update step whose reset input is not
    asserted returns the session state as it was: every field (bird
    position and velocity, pipes, score, spawn countdown, both flags) is
    unchanged. *)
Theorem game_over_frozen (g : Game) (i : Input) :
  phase g = GameOver -> keyR i = false -> Update g i = g.
Proof.
  intros Hp Hr. rewrite (Update_GameOver g i Hp), Hr. reflexivity.
Qed.

Lemma game_over_frozen_witness :
  let g := mkGame 480 (21 # 2) [mkPipe 300 100 false] 3%Z true true 120 in
  Update g (mkInput true false 7) = g.
Proof.
  apply (game_over_frozen
           (mkGame 480 (21 # 2) [mkPipe 300 100 false] 3%Z true true 120)
           (mkInput true false 7)); reflexivity.
Defined.

(** ** C9: the reset key is read in the game-over phase only *)

(** C9. For a state in the NotStarted or the Running phase, two update
    steps that differ only in the reset input (same jump input, same random
    draw) produce the same session state. *)
Theorem reset_key_ignored (g : Game) (sp r1 r2 : bool) (d : Z) :
  phase g = NotStarted \/ phase g = Running ->
  Update g (mkInput sp r1 d) = Update g (mkInput sp r2 d).
Proof.
  intros [Hp | Hp].
  - now rewrite !(Update_NotStarted _ _ Hp).
  - now rewrite !(Update_Running _ _ Hp).
Qed.

Lemma reset_key_ignored_witness :
  let g := mkGame 250 0 [mkPipe 300 100 false] 0%Z false true 120 in
  Update g (mkInput true true 5) = Update g (mkInput true false 5).
Proof.
  apply (reset_key_ignored
           (mkGame 250 0 [mkPipe 300 100 false] 0%Z false true 120)
           true true false 5).
  right. reflexivity.
Defined.

(** ** C3: reset lands in the pre-start phase *)

(** C3. When the reset input is asserted in the GameOver phase, the update
    step sets the score to 0, empties the pipes, puts the bird at
    screenHeight/2 = 250 with velocity 0, sets the spawn countdown to
    screenWidth = 500 and lands in the NotStarted phase.  From there no
    physics runs until a jump input arrives: any run of frames without the
    space key leaves the state as it is, and the first frame with the space
    key only switches to Running, without touching the bird. *)
Theorem reset_lands_not_started (g : Game) (i : Input) :
  phase g = GameOver -> keyR i = true ->
  let g' := Update g i in
  score g' = 0%Z /\ pipes g' = [] /\
  birdY g' = 250 /\ birdY g' = inject_Z (screenHeight ÷ 2) /\
  birdVelocity g' = 0 /\
  nextPipeSpawn g' = 500 /\ nextPipeSpawn g' = inject_Z screenWidth /\
  phase g' = NotStarted /\ g' = initGame /\
  (forall js, Forall (fun j => keySpace j = false) js -> run g' js = g') /\
  (forall j, keySpace j = true ->
     Update g' j = set_started true g' /\ phase (Update g' j) = Running).
Proof.
  intros Hp Hr g'.
  assert (Hg' : g' = initGame).
  { unfold g'. rewrite (Update_GameOver g i Hp), Hr. reflexivity. }
  rewrite Hg'.
  do 9 (split; [reflexivity |]). split.
  - intros js Hjs. now apply run_NotStarted_idle.
  - intros j Hj. unfold Update. simpl. rewrite Hj. split; reflexivity.
Qed.

Lemma reset_lands_not_started_witness :
  let g := mkGame 480 (21 # 2) [mkPipe 300 100 false] 3%Z true true 120 in
  phase g = GameOver /\
  phase (Update g (mkInput false true 0)) = NotStarted.
Proof.
  split; [reflexivity |].
  apply (reset_lands_not_started
           (mkGame 480 (21 # 2) [mkPipe 300 100 false] 3%Z true true 120)
           (mkInput false true 0)); reflexivity.
Defined.

(** ** What each stage of a running frame touches *)

Lemma pipeLoop_over_true y ps sc :
  snd (pipeLoop y ps sc true) = true.
Proof.
  revert sc. induction ps as [| p rest IH]; intros sc; simpl.
  - reflexivity.
  - destruct (collides y _);
      match goal with
      | |- context [pipeLoop y rest ?s true] =>
          specialize (IH s); destruct (pipeLoop y rest s true) as [[ps' sc'] o']
      end; exact IH.
Qed.

Section Stages.
Variables (i : Input) (g : Game).

Lemma birdY_clamped : birdY (hitTop (hitGround g)) = clampY (birdY g).
Proof.
  unfold hitTop, hitGround, clampY.
  destruct (Qgtb (birdY g) (inject_Z floorY)); simpl.
  - reflexivity.
  - destruct (Qltb (birdY g) 0); reflexivity.
Qed.

Lemma gameOver_clamped :
  gameOver (hitTop (hitGround g)) = outOfField (birdY g) || gameOver g.
Proof.
  unfold hitTop, hitGround, outOfField.
  destruct (Qgtb (birdY g) (inject_Z floorY)); simpl.
  - reflexivity.
  - destruct (Qltb (birdY g) 0); reflexivity.
Qed.

Lemma clamped_other :
  birdVelocity (hitTop (hitGround g)) = birdVelocity g /\
  pipes (hitTop (hitGround g)) = pipes g /\
  score (hitTop (hitGround g)) = score g /\
  started (hitTop (hitGround g)) = started g /\
  nextPipeSpawn (hitTop (hitGround g)) = nextPipeSpawn g.
Proof.
  unfold hitTop, hitGround.
  destruct (Qgtb (birdY g) (inject_Z floorY)); simpl.
  - now repeat split.
  - destruct (Qltb (birdY g) 0); now repeat split.
Qed.

Lemma spawnStep_bird :
  birdY (spawnStep i g) = birdY g /\
  birdVelocity (spawnStep i g) = birdVelocity g /\
  gameOver (spawnStep i g) = gameOver g /\
  started (spawnStep i g) = started g /\
  score (spawnStep i g) = score g.
Proof.
  unfold spawnStep. destruct (Qleb (nextPipeSpawn g) 0); now repeat split.
Qed.

Lemma pipesStep_bird :
  birdY (pipesStep g) = birdY g /\
  birdVelocity (pipesStep g) = birdVelocity g /\
  started (pipesStep g) = started g /\
  nextPipeSpawn (pipesStep g) = nextPipeSpawn g.
Proof.
  unfold pipesStep.
  destruct (pipeLoop (birdY g) (pipes g) (score g) (gameOver g))
    as [[ps sc] over]. now repeat split.
Qed.

Lemma pipesStep_fields :
  pipes (pipesStep g)
    = fst (fst (pipeLoop (birdY g) (pipes g) (score g) (gameOver g))) /\
  score (pipesStep g)
    = snd (fst (pipeLoop (birdY g) (pipes g) (score g) (gameOver g))) /\
  gameOver (pipesStep g)
    = snd (pipeLoop (birdY g) (pipes g) (score g) (gameOver g)).
Proof.
  unfold pipesStep.
  destruct (pipeLoop (birdY g) (pipes g) (score g) (gameOver g))
    as [[ps sc] over]. now repeat split.
Qed.

Lemma retire_other :
  birdY (retire g) = birdY g /\
  birdVelocity (retire g) = birdVelocity g /\
  score (retire g) = score g /\
  gameOver (retire g) = gameOver g /\
  started (retire g) = started g /\
  nextPipeSpawn (retire g) = nextPipeSpawn g.
Proof.
  unfold retire. destruct (pipes g) as [| p rest].
  - now repeat split.
  - destruct (Qltb (x p + inject_Z pipeWidth) 0); now repeat split.
Qed.

End Stages.

(** The bird after a running frame: velocity and position come from the
    first stages alone, the pipe stages leave them as they are. *)
Lemma runFrame_birdVelocity i g :
  birdVelocity (runFrame i g) = birdVelocity (jump i g) + gravity.
Proof.
  unfold runFrame.
  rewrite (proj1 (proj2 (retire_other _))).
  rewrite (proj1 (proj2 (pipesStep_bird _))).
  rewrite (proj1 (proj2 (spawnStep_bird _ _))).
  rewrite (proj1 (clamped_other _)).
  reflexivity.
Qed.

Lemma runFrame_birdY i g :
  birdY (runFrame i g)
  = clampY (birdY g + (birdVelocity (jump i g) + gravity)).
Proof.
  unfold runFrame.
  rewrite (proj1 (retire_other _)).
  rewrite (proj1 (pipesStep_bird _)).
  rewrite (proj1 (spawnStep_bird _ _)).
  rewrite birdY_clamped.
  unfold integrate, jump. destruct (keySpace i); reflexivity.
Qed.

Lemma runFrame_started i g : started (runFrame i g) = started g.
Proof.
  unfold runFrame.
  rewrite (proj1 (proj2 (proj2 (proj2 (proj2 (retire_other _)))))).
  rewrite (proj1 (proj2 (proj2 (pipesStep_bird _)))).
  rewrite (proj1 (proj2 (proj2 (proj2 (spawnStep_bird _ _))))).
  rewrite (proj1 (proj2 (proj2 (proj2 (clamped_other _))))).
  unfold integrate, jump. destruct (keySpace i); reflexivity.
Qed.

(** A clamp that fires ends the session, whatever the pipes do. *)
Lemma runFrame_gameOver_clamp i g :
  outOfField (birdY g + (birdVelocity (jump i g) + gravity)) = true ->
  gameOver (runFrame i g) = true.
Proof.
  intros Hout. unfold runFrame.
  rewrite (proj1 (proj2 (proj2 (proj2 (retire_other _))))).
  rewrite (proj2 (proj2 (pipesStep_fields _))).
  rewrite (proj1 (proj2 (proj2 (spawnStep_bird _ _)))).
  rewrite gameOver_clamped.
  replace (birdY (integrate (jump i g)))
    with (birdY g + (birdVelocity (jump i g) + gravity))
    by (unfold integrate, jump; destruct (keySpace i); reflexivity).
  rewrite Hout. simpl. apply pipeLoop_over_true.
Qed.

Lemma clampY_range y : 0 <= clampY y <= inject_Z floorY.
Proof.
  unfold clampY. repeat cmp_case; split; try lra;
    try (apply Qnot_lt_le; assumption); discriminate.
Qed.

(** ** C6: a jump overwrites the velocity before gravity is added *)

(** C6. On a Running frame with the jump input asserted the velocity is
    first overwritten with jumpStrength (the old velocity is discarded),
    then gravity is added, so the velocity after the frame is
    jumpStrength + gravity = -11/2 whatever it was before, and the position
    moves by that same -11/2 before the clamps of the frame are applied. *)
Theorem jump_overwrites_velocity (g : Game) (i : Input) :
  phase g = Running -> keySpace i = true ->
  birdVelocity (jump i g) = inject_Z jumpStrength /\
  Update g i
  = retire (pipesStep (spawnStep i
      (hitTop (hitGround (integrate (jump i g)))))) /\
  birdVelocity (Update g i) = inject_Z jumpStrength + gravity /\
  birdVelocity (Update g i) = -11 # 2 /\
  birdY (integrate (jump i g)) = birdY g + (-11 # 2) /\
  birdY (Update g i) = clampY (birdY g + (-11 # 2)).
Proof.
  intros Hp Hk. rewrite (Update_Running g i Hp).
  split; [unfold jump; now rewrite Hk |].
  split; [reflexivity |].
  rewrite runFrame_birdVelocity, runFrame_birdY.
  unfold integrate, jump. rewrite Hk. simpl.
  repeat split; reflexivity.
Qed.

Lemma jump_overwrites_velocity_witness :
  let g := mkGame 250 (17 # 2) [] 0%Z false true 500 in
  birdVelocity (Update g (mkInput true false 0)) = -11 # 2.
Proof.
  apply (jump_overwrites_velocity
           (mkGame 250 (17 # 2) [] 0%Z false true 500)
           (mkInput true false 0)); reflexivity.
Defined.

(** ** C7: the ceiling is fatal *)

(** C7. A Running frame that starts with the bird at position 0 and
    velocity -3, without jump input, ends with velocity -5/2, position 0
    (clamped) and in the GameOver phase. *)
Theorem ceiling_is_fatal (g : Game) (i : Input) :
  phase g = Running -> keySpace i = false ->
  birdY g == 0 -> birdVelocity g == -3 ->
  birdVelocity (Update g i) == -5 # 2 /\
  birdY (Update g i) = 0 /\
  phase (Update g i) = GameOver.
Proof.
  intros Hp Hk Hy Hv. rewrite (Update_Running g i Hp).
  assert (Hj : jump i g = g) by (unfold jump; now rewrite Hk).
  assert (Hlow : birdY g + (birdVelocity g + gravity) < 0).
  { rewrite Hy, Hv. reflexivity. }
  split; [| split].
  - rewrite runFrame_birdVelocity, Hj, Hv. reflexivity.
  - rewrite runFrame_birdY, Hj. unfold clampY.
    destruct (Qgtb_spec (birdY g + (birdVelocity g + gravity))
                        (inject_Z floorY)) as [Hgt | _].
    + exfalso. assert (0 < inject_Z floorY) by reflexivity. lra.
    + destruct (Qltb_spec (birdY g + (birdVelocity g + gravity)) 0);
        [reflexivity | contradiction].
  - apply phase_GameOver. split.
    + rewrite runFrame_started. now apply phase_Running in Hp.
    + apply runFrame_gameOver_clamp. rewrite Hj. unfold outOfField.
      destruct (Qltb_spec (birdY g + (birdVelocity g + gravity)) 0);
        [apply orb_true_r | contradiction].
Qed.

Lemma ceiling_is_fatal_witness :
  let g := mkGame 0 (-3) [mkPipe 400 120 false] 0%Z false true 150 in
  let g' := Update g (mkInput false false 0) in
  birdVelocity g' == -5 # 2 /\ birdY g' = 0 /\ phase g' = GameOver.
Proof.
  apply (ceiling_is_fatal
           (mkGame 0 (-3) [mkPipe 400 120 false] 0%Z false true 150)
           (mkInput false false 0)); reflexivity.
Defined.

(** ** C4: the bird stays inside the field *)

Lemma Update_inField g i : inField (birdY g) -> inField (birdY (Update g i)).
Proof.
  intros H. unfold Update.
  destruct (started g); simpl.
  - destruct (gameOver g).
    + destruct (keyR i); [| exact H]. split; discriminate.
    + rewrite runFrame_birdY. apply clampY_range.
  - destruct (keySpace i); exact H.
Qed.

Lemma running_inField g i :
  phase g = Running -> inField (birdY (Update g i)).
Proof.
  intros Hp. rewrite (Update_Running g i Hp), runFrame_birdY.
  apply clampY_range.
Qed.

Lemma reachable_inField g : reachable g -> inField (birdY g).
Proof.
  induction 1 as [| g i _ IH].
  - split; discriminate.
  - now apply Update_inField.
Qed.

(** C4. From every reachable state, in every phase and for every input and
    random draw, the bird's position after the update step lies between 0
    and screenHeight - birdSize = 480; in the running phase the two clamps
    put it there whatever the position was before. *)
Theorem birdY_stays_in_field (g : Game) (i : Input) :
  reachable g ->
  0 <= birdY (Update g i) <= inject_Z (screenHeight - birdSize) /\
  0 <= birdY (Update g i) <= 480 /\
  (forall ins, 0 <= birdY (run g ins) <= 480) /\
  (forall g0 i0, phase g0 = Running -> 0 <= birdY (Update g0 i0) <= 480).
Proof.
  intros Hr. split; [| split; [| split]].
  - exact (Update_inField g i (reachable_inField g Hr)).
  - exact (Update_inField g i (reachable_inField g Hr)).
  - intros ins. apply reachable_inField. unfold run.
    revert g Hr. induction ins as [| j js IH]; intros g Hr; simpl.
    + exact Hr.
    + apply IH. now constructor.
  - intros g0 i0. apply running_inField.
Qed.

Lemma birdY_stays_in_field_witness :
  0 <= birdY (Update initGame (mkInput true false 0)) <= 480.
Proof.
  exact (proj1 (proj2
    (birdY_stays_in_field initGame (mkInput true false 0) reach_init))).
Defined.

(** ** The pipe loop, declaratively *)

Lemma collides_stepPipe y p : collides y (stepPipe p) = collides y (movePipe p).
Proof. unfold stepPipe. destruct (crossing (movePipe p)); reflexivity. Qed.

Lemma bump_S_inner n sc : bump n (wrapInt (sc + 1)) = bump (S n) sc.
Proof.
  unfold bump. induction n as [| n IH]; simpl.
  - reflexivity.
  - simpl in IH. now rewrite IH.
Qed.

Lemma pipeLoop_spec y ps sc over :
  pipeLoop y ps sc over
  = (map stepPipe ps,
     bump (length (crossers ps)) sc,
     over || existsb (fun p => collides y (movePipe p)) ps).
Proof.
  revert sc over. induction ps as [| p rest IH]; intros sc over.
  - simpl. now rewrite orb_false_r.
  - cbn [pipeLoop]. fold (stepPipe p). rewrite IH.
    rewrite collides_stepPipe. unfold crossers. cbn [map filter existsb].
    fold (crossers rest).
    destruct (crossing (movePipe p)); cbn [length];
      [rewrite bump_S_inner |];
      destruct (collides y (movePipe p)), over; reflexivity.
Qed.

Lemma wrapInt_id z : (minInt <= z <= maxInt)%Z -> wrapInt z = z.
Proof.
  unfold wrapInt, minInt, maxInt, intBits. intros H.
  rewrite Z.mod_small; lia.
Qed.

Lemma bump_no_overflow n sc :
  (minInt <= sc)%Z -> (sc + Z.of_nat n <= maxInt)%Z ->
  bump n sc = (sc + Z.of_nat n)%Z.
Proof.
  unfold bump. induction n as [| n IH]; intros Hlo Hhi.
  - simpl. lia.
  - rewrite Nat.iter_succ, IH by lia. rewrite wrapInt_id; lia.
Qed.

Lemma spawnStep_pipes i g :
  pipes (spawnStep i g)
  = if Qleb (nextPipeSpawn g) 0 then pipes (spawnPipe (draw i) g) else pipes g.
Proof. unfold spawnStep. destruct (Qleb (nextPipeSpawn g) 0); reflexivity. Qed.

Lemma spawnStep_nextPipeSpawn i g :
  nextPipeSpawn (spawnStep i g)
  = (if Qleb (nextPipeSpawn g) 0 then inject_Z pipeSpacing else nextPipeSpawn g)
    - inject_Z pipeSpeed.
Proof. unfold spawnStep. destruct (Qleb (nextPipeSpawn g) 0); reflexivity. Qed.

(** The first three stages do not touch the obstacle side of the state. *)
Lemma bird_stages_obstacles i g :
  let b := hitTop (hitGround (integrate (jump i g))) in
  pipes b = pipes g /\ score b = score g /\
  nextPipeSpawn b = nextPipeSpawn g.
Proof.
  intros b. unfold b.
  destruct (clamped_other (integrate (jump i g))) as (_ & Hp & Hs & _ & Hn).
  rewrite Hp, Hs, Hn. unfold integrate, jump.
  destruct (keySpace i); now repeat split.
Qed.

Lemma framePipes_bird_stages i g :
  framePipes i (hitTop (hitGround (integrate (jump i g)))) = framePipes i g.
Proof.
  destruct (bird_stages_obstacles i g) as (Hp & _ & Hn).
  unfold framePipes. rewrite !spawnStep_pipes, Hn.
  unfold spawnPipe. simpl. now rewrite Hp.
Qed.

Lemma pipesStep_spec g :
  pipes (pipesStep g) = map stepPipe (pipes g) /\
  score (pipesStep g) = bump (length (crossers (pipes g))) (score g) /\
  gameOver (pipesStep g)
  = gameOver g || existsb (fun p => collides (birdY g) (movePipe p)) (pipes g).
Proof.
  destruct (pipesStep_fields g) as (Hp & Hs & Ho).
  rewrite Hp, Hs, Ho, pipeLoop_spec. now repeat split.
Qed.

(** The obstacle side of a running frame. *)
Lemma runFrame_score i g :
  score (runFrame i g) = bump (length (crossers (framePipes i g))) (score g).
Proof.
  unfold runFrame.
  rewrite (proj1 (proj2 (proj2 (retire_other _)))).
  rewrite (proj1 (proj2 (pipesStep_spec _))).
  change (pipes (spawnStep i (hitTop (hitGround (integrate (jump i g))))))
    with (framePipes i (hitTop (hitGround (integrate (jump i g))))).
  rewrite framePipes_bird_stages.
  rewrite (proj2 (proj2 (proj2 (proj2 (spawnStep_bird _ _))))).
  now rewrite (proj1 (proj2 (bird_stages_obstacles i g))).
Qed.

Lemma runFrame_pipes i g :
  pipes (runFrame i g)
  = pipes (retire (set_pipes (map stepPipe (framePipes i g)) g)).
Proof.
  unfold runFrame.
  set (s := spawnStep i (hitTop (hitGround (integrate (jump i g))))).
  assert (Hs : pipes (pipesStep s) = map stepPipe (framePipes i g)).
  { rewrite (proj1 (pipesStep_spec _)). unfold s.
    change (pipes (spawnStep i (hitTop (hitGround (integrate (jump i g))))))
      with (framePipes i (hitTop (hitGround (integrate (jump i g))))).
    now rewrite framePipes_bird_stages. }
  unfold retire. rewrite Hs. cbn [pipes set_pipes].
  destruct (map stepPipe (framePipes i g)) as [| p rest]; [exact Hs |].
  destruct (Qltb (x p + inject_Z pipeWidth) 0); [reflexivity | exact Hs].
Qed.

Lemma runFrame_nextPipeSpawn i g :
  nextPipeSpawn (runFrame i g) = nextPipeSpawn (spawnStep i g).
Proof.
  unfold runFrame.
  rewrite (proj2 (proj2 (proj2 (proj2 (proj2 (retire_other _)))))).
  rewrite (proj2 (proj2 (proj2 (pipesStep_bird _)))).
  rewrite !spawnStep_nextPipeSpawn.
  now rewrite (proj2 (proj2 (bird_stages_obstacles i g))).
Qed.

Lemma runFrame_gameOver i g :
  gameOver (runFrame i g)
  = outOfField (birdY g + (birdVelocity (jump i g) + gravity))
    || gameOver g
    || existsb (fun p => collides (birdY (runFrame i g)) (movePipe p))
               (framePipes i g).
Proof.
  rewrite runFrame_birdY. unfold runFrame.
  rewrite (proj1 (proj2 (proj2 (proj2 (retire_other _))))).
  rewrite (proj2 (proj2 (pipesStep_spec _))).
  change (pipes (spawnStep i (hitTop (hitGround (integrate (jump i g))))))
    with (framePipes i (hitTop (hitGround (integrate (jump i g))))).
  rewrite framePipes_bird_stages.
  rewrite (proj1 (spawnStep_bird _ _)).
  rewrite (proj1 (proj2 (proj2 (spawnStep_bird _ _)))).
  rewrite birdY_clamped, gameOver_clamped.
  replace (birdY (integrate (jump i g)))
    with (birdY g + (birdVelocity (jump i g) + gravity))
    by (unfold integrate, jump; destruct (keySpace i); reflexivity).
  replace (gameOver (integrate (jump i g))) with (gameOver g)
    by (unfold integrate, jump; destruct (keySpace i); reflexivity).
  reflexivity.
Qed.

(** ** C2: where a new pipe is put *)

Lemma Intn_range n raw : (0 < n)%Z -> (0 <= Intn n raw < n)%Z.
Proof. intros Hn. unfold Intn. now apply Z.mod_pos_bound. Qed.

(** Every value of the interval is a possible result. *)
Lemma Intn_onto n r : (0 <= r < n)%Z -> Intn n r = r.
Proof. intros Hr. unfold Intn. now apply Z.mod_small. Qed.

Lemma inject_Z_le a b : (a <= b)%Z -> inject_Z a <= inject_Z b.
Proof. intros H. now rewrite <- Zle_Qle. Qed.

Lemma spawnPipe_pipes raw g :
  pipes (spawnPipe raw g) = pipes g ++ [newPipe raw].
Proof. reflexivity. Qed.

Lemma framePipes_eq i g :
  framePipes i g
  = if Qleb (nextPipeSpawn g) 0 then pipes g ++ [newPipe (draw i)] else pipes g.
Proof. unfold framePipes. now rewrite spawnStep_pipes, spawnPipe_pipes. Qed.

(** The top of the gap never reaches the upper bound of the interval: the
    draw is below 310. *)
Lemma newPipe_height_sharp raw : 20 <= height (newPipe raw) <= 329.
Proof.
  unfold newPipe. cbn [height].
  pose proof (Intn_range (screenHeight - pipeGap - birdSize * 2) raw eq_refl)
    as Hr.
  change (screenHeight - pipeGap - birdSize * 2)%Z with 310%Z in *.
  change birdSize with 20%Z.
  split.
  - change 20 with (inject_Z 20). apply inject_Z_le. lia.
  - change 329 with (inject_Z 329). apply inject_Z_le. lia.
Qed.

(** C2. The pipe appended by the spawn operation, for every value of the
    random draw, has its gap top in the interval from birdSize to
    screenHeight - pipeGap - birdSize (from 20 to 330), starts at
    x = screenWidth = 500 and is not yet scored; a running frame adds
    exactly this pipe when the spawn countdown is at or below zero. *)
Theorem spawned_pipe_in_range (g : Game) (i : Input) :
  let p := newPipe (draw i) in
  pipes (spawnPipe (draw i) g) = pipes g ++ [p] /\
  framePipes i g = (if Qleb (nextPipeSpawn g) 0
                    then pipes g ++ [p] else pipes g) /\
  x p = inject_Z screenWidth /\ x p = 500 /\
  inject_Z birdSize <= height p
    <= inject_Z (screenHeight - pipeGap - birdSize) /\
  20 <= height p <= 330 /\
  passed p = false.
Proof.
  intros p. pose proof (newPipe_height_sharp (draw i)) as [Hlo Hhi].
  fold p in Hlo, Hhi.
  assert (H330 : height p <= 330).
  { apply Qle_trans with (1 := Hhi). discriminate. }
  split; [apply spawnPipe_pipes |].
  split; [apply framePipes_eq |].
  repeat split; try reflexivity; assumption.
Qed.

(** ** C1: the collision test at a pipe with its gap top at 100 *)

Lemma collides_in_span y p :
  x p <= inject_Z centerX <= x p + inject_Z pipeWidth ->
  collides y p
  = Qleb y (height p)
    || Qgeb (y + inject_Z birdSize) (height p + inject_Z pipeGap).
Proof.
  intros [H1 H2]. unfold collides.
  destruct (Qgeb_spec (inject_Z centerX) (x p)); [| contradiction].
  destruct (Qleb_spec (inject_Z centerX) (x p + inject_Z pipeWidth));
    [| contradiction].
  reflexivity.
Qed.

Lemma collides_iff y p :
  x p <= 250 <= x p + 50 -> height p == 100 ->
  collides y p = true <-> y <= 100 \/ 250 <= y + 20.
Proof.
  intros Hspan Hh. rewrite (collides_in_span y p Hspan).
  rewrite orb_true_iff.
  change (inject_Z birdSize) with 20. change (inject_Z pipeGap) with 150.
  split; intros [H | H].
  - left. destruct (Qleb_spec y (height p)); [lra | discriminate].
  - right.
    destruct (Qgeb_spec (y + 20) (height p + 150)); [lra | discriminate].
  - left. destruct (Qleb_spec y (height p)); [reflexivity | lra].
  - right.
    destruct (Qgeb_spec (y + 20) (height p + 150)); [reflexivity | lra].
Qed.

(** A pipe that the bird overlaps ends the session. *)
Lemma collision_ends_session g i q :
  phase g = Running -> In q (framePipes i g) ->
  collides (birdY (Update g i)) (movePipe q) = true ->
  phase (Update g i) = GameOver.
Proof.
  intros Hp Hin Hc. rewrite (Update_Running g i Hp) in *.
  apply phase_GameOver. split.
  - rewrite runFrame_started. now apply phase_Running in Hp.
  - rewrite runFrame_gameOver.
    apply orb_true_iff. right. apply existsb_exists. now exists q.
Qed.

(** C1 (as amended). For a pipe of the frame whose moved span contains the
    bird's horizontal centre 250 and whose gap top is at 100 (bird size 20,
    gap height 150), the collision test is true at the bird positions 50,
    90 and 5 alike; it is true exactly when the position y has y <= 100 or
    y + 20 >= 250, so only positions strictly between 100 and 230 are free;
    and a running frame that leaves the bird at or above 100 ends in the
    GameOver phase. *)
Theorem gap_scenario_collides (g : Game) (i : Input) (q : Pipe) :
  phase g = Running -> In q (framePipes i g) ->
  x (movePipe q) <= 250 <= x (movePipe q) + 50 -> height q == 100 ->
  collides 50 (movePipe q) = true /\
  collides 90 (movePipe q) = true /\
  collides 5 (movePipe q) = true /\
  (forall y, collides y (movePipe q) = true <-> y <= 100 \/ 250 <= y + 20) /\
  (forall y, collides y (movePipe q) = false <-> 100 < y /\ y + 20 < 250) /\
  (birdY (Update g i) <= 100 -> phase (Update g i) = GameOver).
Proof.
  intros Hp Hin Hspan Hh.
  assert (Hiff : forall y,
             collides y (movePipe q) = true <-> y <= 100 \/ 250 <= y + 20).
  { intros y. now apply collides_iff. }
  split; [apply Hiff; left; discriminate |].
  split; [apply Hiff; left; discriminate |].
  split; [apply Hiff; left; discriminate |].
  split; [exact Hiff |].
  split.
  - intros y. rewrite <- not_true_iff_false, Hiff. split.
    + intros Hn. split; apply Qnot_le_lt; intro; apply Hn; auto.
    + intros [H1 H2] [H | H]; lra.
  - intros Hy. apply (collision_ends_session g i q Hp Hin).
    apply Hiff. now left.
Qed.

Lemma gap_scenario_collides_witness :
  let q := mkPipe 227 100 false in
  let g := mkGame 50 (-1 # 2) [q] 0%Z false true 100 in
  let i := mkInput false false 0 in
  (phase g = Running /\ In q (framePipes i g) /\
   x (movePipe q) <= 250 <= x (movePipe q) + 50 /\ height q == 100) /\
  collides 50 (movePipe q) = true /\
  collides 90 (movePipe q) = true /\
  collides 5 (movePipe q) = true /\
  (forall y, collides y (movePipe q) = true <-> y <= 100 \/ 250 <= y + 20) /\
  (forall y, collides y (movePipe q) = false <-> 100 < y /\ y + 20 < 250) /\
  (birdY (Update g i) <= 100 -> phase (Update g i) = GameOver).
Proof.
  intros q g i.
  assert (H1 : phase g = Running) by reflexivity.
  assert (H2 : In q (framePipes i g)) by (left; reflexivity).
  assert (H3 : x (movePipe q) <= 250 <= x (movePipe q) + 50)
    by (split; vm_compute; discriminate).
  assert (H4 : height q == 100) by reflexivity.
  split; [now repeat split |].
  exact (gap_scenario_collides g i q H1 H2 H3 H4).
Defined.

(** C1 as the specification has it fails: with the gap top at 100 and the
    pipe over the bird's centre, a frame that leaves the bird at position 50
    reports a collision and ends in GameOver, and so does the test at 90. *)
Lemma gap_scenario_counterexample :
  let q := mkPipe 227 100 false in
  let g := mkGame 50 (-1 # 2) [q] 0%Z false true 100 in
  let i := mkInput false false 0 in
  phase g = Running /\
  framePipes i g = [q] /\
  x (movePipe q) <= inject_Z centerX <= x (movePipe q) + inject_Z pipeWidth /\
  height (movePipe q) = 100 /\
  birdY (Update g i) == 50 /\
  outOfField (birdY g + (birdVelocity (jump i g) + gravity)) = false /\
  collides 50 (movePipe q) = true /\
  collides 90 (movePipe q) = true /\
  phase (Update g i) = GameOver /\
  ~ (forall p : Pipe,
       x p <= 250 <= x p + 50 -> height p == 100 ->
       collides 50 p = false /\ collides 90 p = false /\ collides 5 p = true).
Proof.
  intros q g i.
  assert (Hspan : x (movePipe q) <= 250 <= x (movePipe q) + 50)
    by (split; vm_compute; discriminate).
  split; [reflexivity |].
  split; [reflexivity |].
  split; [exact Hspan |].
  split; [reflexivity |].
  split; [reflexivity |].
  split; [reflexivity |].
  split; [reflexivity |].
  split; [reflexivity |].
  split; [reflexivity |].
  intros H.
  destruct (H (movePipe q) Hspan) as [H50 _].
  - reflexivity.
  - vm_compute in H50. discriminate.
Qed.

(** ** Pipes across a frame *)

Lemma retire_pipes g : pipes (retire g) = retirePipes (pipes g).
Proof.
  unfold retire, retirePipes. destruct (pipes g) as [| p rest] eqn:E.
  - exact E.
  - destruct (Qltb (x p + inject_Z pipeWidth) 0); [reflexivity | exact E].
Qed.

Lemma runFrame_pipes' i g :
  pipes (runFrame i g) = retirePipes (map stepPipe (framePipes i g)).
Proof. now rewrite runFrame_pipes, retire_pipes. Qed.

Lemma retirePipes_cases ps :
  retirePipes ps = ps \/ retirePipes ps = tl ps.
Proof.
  destruct ps as [| p rest]; [now left |]. unfold retirePipes.
  destruct (Qltb (x p + inject_Z pipeWidth) 0); [now right | now left].
Qed.

Lemma stepPipe_x p : x (stepPipe p) = x p - inject_Z pipeSpeed.
Proof. unfold stepPipe. destruct (crossing (movePipe p)); reflexivity. Qed.

Lemma stepPipe_height p : height (stepPipe p) = height p.
Proof. unfold stepPipe. destruct (crossing (movePipe p)); reflexivity. Qed.

Lemma stepPipe_passed p :
  passed (stepPipe p) = passed p || crossing (movePipe p).
Proof.
  unfold stepPipe. destruct (crossing (movePipe p)); simpl.
  - now rewrite orb_true_r.
  - now rewrite orb_false_r.
Qed.

Lemma crossing_movePipe p :
  crossing (movePipe p) = true <->
  passed p = false /\
  x p - inject_Z pipeSpeed + inject_Z pipeWidth < inject_Z centerX.
Proof.
  unfold crossing, movePipe. cbn [x passed].
  rewrite andb_true_iff, negb_true_iff.
  split; intros [H1 H2]; split; try assumption.
  - now destruct (Qltb_spec (x p - inject_Z pipeSpeed + inject_Z pipeWidth)
                            (inject_Z centerX)).
  - now destruct (Qltb_spec (x p - inject_Z pipeSpeed + inject_Z pipeWidth)
                            (inject_Z centerX)).
Qed.

(** ** C5: the score counts every pipe once *)

Lemma unscored_app ps qs :
  unscored (ps ++ qs) = (unscored ps + unscored qs)%nat.
Proof. unfold unscored. now rewrite filter_app, length_app. Qed.

Lemma unscored_stepPipe ps :
  (unscored (map stepPipe ps) + length (crossers ps))%nat = unscored ps.
Proof.
  unfold unscored, crossers. induction ps as [| p rest IH]; [reflexivity |].
  cbn [map filter]. rewrite stepPipe_passed.
  destruct (crossing (movePipe p)) eqn:Ec.
  - apply crossing_movePipe in Ec as [Hpass _]. rewrite Hpass.
    cbn [negb orb length]. lia.
  - rewrite orb_false_r. destruct (passed p); cbn [negb length]; lia.
Qed.

Lemma unscored_retirePipes ps : (unscored (retirePipes ps) <= unscored ps)%nat.
Proof.
  destruct ps as [| p rest]; [simpl; lia |]. unfold retirePipes.
  destruct (Qltb (x p + inject_Z pipeWidth) 0); [| lia].
  unfold unscored. cbn [filter]. destruct (negb (passed p)); simpl; lia.
Qed.

Lemma unscored_framePipes i g :
  (unscored (framePipes i g) <= unscored (pipes g) + 1)%nat.
Proof.
  rewrite framePipes_eq. destruct (Qleb (nextPipeSpawn g) 0); [| lia].
  rewrite unscored_app. change (unscored [newPipe (draw i)]) with 1%nat. lia.
Qed.

Lemma wrapInt_range z : (minInt <= wrapInt z <= maxInt)%Z.
Proof.
  unfold wrapInt, minInt, maxInt, intBits.
  pose proof (Z.mod_pos_bound (z + 2 ^ (64 - 1)) (2 ^ 64) eq_refl). lia.
Qed.

Lemma bump_range n sc :
  (minInt <= sc <= maxInt)%Z -> (minInt <= bump n sc <= maxInt)%Z.
Proof.
  intros H. destruct n as [| n]; [exact H |].
  unfold bump. rewrite Nat.iter_succ. apply wrapInt_range.
Qed.

Lemma reachable_score_range g :
  reachable g -> (minInt <= score g <= maxInt)%Z.
Proof.
  induction 1 as [| g i _ IH].
  - split; discriminate.
  - unfold Update. destruct (started g); simpl.
    + destruct (gameOver g).
      * destruct (keyR i); [split; discriminate | exact IH].
      * rewrite runFrame_score. now apply bump_range.
    + destruct (keySpace i); exact IH.
Qed.

(** One frame without reset: the score does not go down, and what can
    still be added to it grows by at most the one pipe that may spawn. *)
Lemma Update_score_step g i :
  resets g i = false ->
  (minInt <= score g)%Z ->
  (score g + Z.of_nat (unscored (pipes g)) + 1 <= maxInt)%Z ->
  (score g <= score (Update g i))%Z /\
  (score (Update g i) + Z.of_nat (unscored (pipes (Update g i)))
   <= score g + Z.of_nat (unscored (pipes g)) + 1)%Z.
Proof.
  intros Hnr Hlo Hhi. unfold Update, resets in *.
  destruct (started g); cbn [negb andb] in *.
  - destruct (gameOver g); cbn [negb andb] in *.
    + rewrite Hnr. lia.
    + pose proof (unscored_framePipes i g) as Hf.
      pose proof (unscored_stepPipe (framePipes i g)) as Hs.
      pose proof (unscored_retirePipes (map stepPipe (framePipes i g))) as Hr.
      rewrite runFrame_score, runFrame_pipes'.
      rewrite bump_no_overflow by lia. lia.
  - destruct (keySpace i); cbn [score pipes set_started]; lia.
Qed.

Lemma run_app g ins1 ins2 : run g (ins1 ++ ins2) = run (run g ins1) ins2.
Proof. unfold run. apply fold_left_app. Qed.

Lemma noReset_app g ins1 ins2 :
  noReset g (ins1 ++ ins2) <-> noReset g ins1 /\ noReset (run g ins1) ins2.
Proof.
  revert g. induction ins1 as [| i rest IH]; intros g; simpl.
  - tauto.
  - rewrite IH. unfold run. simpl. tauto.
Qed.

Lemma run_score_mono ins g :
  noReset g ins ->
  (minInt <= score g)%Z ->
  (score g + Z.of_nat (unscored (pipes g)) + Z.of_nat (length ins)
   <= maxInt)%Z ->
  (score g <= score (run g ins))%Z /\
  (score (run g ins) + Z.of_nat (unscored (pipes (run g ins)))
   <= score g + Z.of_nat (unscored (pipes g)) + Z.of_nat (length ins))%Z.
Proof.
  revert g. induction ins as [| i rest IH]; intros g Hnr Hlo Hhi.
  - unfold run. simpl. lia.
  - destruct Hnr as [Hr Hrest]. cbn [length] in Hhi.
    destruct (Update_score_step g i Hr Hlo) as [H1 H2]; [lia |].
    destruct (IH (Update g i) Hrest) as [H3 H4]; [lia | lia |].
    unfold run in *. cbn [fold_left length]. lia.
Qed.

(** *** The flag of a pipe and its position *)

Lemma flagged_stepPipe p : flagged p -> flagged (stepPipe p).
Proof.
  unfold flagged. intros Hf. rewrite stepPipe_passed, stepPipe_x.
  destruct (passed p) eqn:Hpass; cbn [orb].
  - symmetry in Hf. symmetry.
    destruct (Qltb_spec (x p + inject_Z pipeWidth) (inject_Z centerX))
      as [Hlt | _]; [| discriminate].
    destruct (Qltb_spec (x p - inject_Z pipeSpeed + inject_Z pipeWidth)
                        (inject_Z centerX)) as [_ | Hn]; [reflexivity |].
    exfalso. apply Hn.
    assert (0 < inject_Z pipeSpeed) by reflexivity. lra.
  - unfold crossing, movePipe. cbn [x passed]. now rewrite Hpass.
Qed.

Lemma flagged_newPipe raw : flagged (newPipe raw).
Proof. reflexivity. Qed.

Lemma Forall_retirePipes (P : Pipe -> Prop) ps :
  Forall P ps -> Forall P (retirePipes ps).
Proof.
  intros H. destruct (retirePipes_cases ps) as [-> | ->]; [exact H |].
  destruct H; simpl; [constructor | assumption].
Qed.

Lemma framePipes_flagged i g :
  Forall flagged (pipes g) -> Forall flagged (framePipes i g).
Proof.
  intros H. rewrite framePipes_eq.
  destruct (Qleb (nextPipeSpawn g) 0); [| exact H].
  apply Forall_app. split; [exact H |].
  constructor; [apply flagged_newPipe | constructor].
Qed.

Lemma Update_flagged g i :
  Forall flagged (pipes g) -> Forall flagged (pipes (Update g i)).
Proof.
  intros H. unfold Update. destruct (started g); simpl.
  - destruct (gameOver g).
    + destruct (keyR i); [constructor | exact H].
    + rewrite runFrame_pipes'. apply Forall_retirePipes.
      apply Forall_forall. intros p' [p [<- Hin]]%in_map_iff.
      apply flagged_stepPipe.
      pose proof (framePipes_flagged i g H) as Hf.
      rewrite Forall_forall in Hf. now apply Hf.
  - destruct (keySpace i); exact H.
Qed.

Lemma reachable_flagged g : reachable g -> Forall flagged (pipes g).
Proof.
  induction 1 as [| g i _ IH]; [constructor | now apply Update_flagged].
Qed.

(** Once the flag is set it stays set, so the pipe is never scored again. *)
Lemma passed_stays p k :
  passed p = true -> passed (Nat.iter k stepPipe p) = true.
Proof.
  intros H. induction k as [| k IH]; [exact H |].
  rewrite Nat.iter_succ, stepPipe_passed, IH. reflexivity.
Qed.

Lemma never_scored_again p k :
  passed p = true -> crossing (movePipe (Nat.iter k stepPipe p)) = false.
Proof.
  intros H. unfold crossing, movePipe. cbn [passed].
  now rewrite (passed_stays p k H).
Qed.

(** In a reachable state a pipe is scored by the frame in which its
    trailing edge moves from the centre or right of it to the left of it. *)
Lemma crossing_first_frame p :
  flagged p ->
  crossing (movePipe p) = true <->
  inject_Z centerX <= x p + inject_Z pipeWidth /\
  x p - inject_Z pipeSpeed + inject_Z pipeWidth < inject_Z centerX.
Proof.
  unfold flagged. intros Hf. rewrite crossing_movePipe, Hf.
  destruct (Qltb_spec (x p + inject_Z pipeWidth) (inject_Z centerX))
    as [Hlt | Hge].
  - split; [intros [? _]; discriminate |].
    intros [Hc _]. exfalso. lra.
  - split; intros [_ H]; (split; [| exact H]);
      [now apply Qnot_lt_le | reflexivity].
Qed.

(** *** Accounting: scored pipes, on screen and retired *)

Lemma scored_stepPipe ps :
  scored (map stepPipe ps) = (scored ps + length (crossers ps))%nat.
Proof.
  unfold scored, crossers. induction ps as [| p rest IH]; [reflexivity |].
  cbn [map filter]. rewrite stepPipe_passed.
  destruct (crossing (movePipe p)) eqn:Ec.
  - apply crossing_movePipe in Ec as [Hpass _]. rewrite Hpass.
    cbn [orb length]. lia.
  - rewrite orb_false_r. destruct (passed p); cbn [length]; lia.
Qed.

Lemma scored_framePipes i g : scored (framePipes i g) = scored (pipes g).
Proof.
  rewrite framePipes_eq. destruct (Qleb (nextPipeSpawn g) 0); [| reflexivity].
  unfold scored. rewrite filter_app, length_app. simpl. lia.
Qed.

(** A pipe that leaves the screen has been scored. *)
Lemma scored_retirePipes ps :
  Forall flagged ps ->
  (scored (retirePipes ps) + (length ps - length (retirePipes ps)))%nat
  = scored ps.
Proof.
  intros Hf. destruct ps as [| p rest]; [reflexivity |].
  unfold retirePipes.
  destruct (Qltb_spec (x p + inject_Z pipeWidth) 0) as [Hoff | _]; [| lia].
  apply Forall_inv in Hf. unfold flagged in Hf.
  destruct (Qltb_spec (x p + inject_Z pipeWidth) (inject_Z centerX))
    as [_ | Hn].
  - unfold scored. cbn [filter length]. rewrite Hf. cbn [length]. lia.
  - exfalso. apply Hn. assert (0 < inject_Z centerX) by reflexivity. lra.
Qed.

Lemma Update_accounting g i :
  resets g i = false ->
  Forall flagged (pipes g) ->
  (minInt <= score g)%Z ->
  (score g + Z.of_nat (unscored (pipes g)) + 1 <= maxInt)%Z ->
  (score (Update g i) + Z.of_nat (scored (pipes g))
   = score g + Z.of_nat (retiredBy g i)
     + Z.of_nat (scored (pipes (Update g i))))%Z.
Proof.
  intros Hnr Hfl Hlo Hhi. unfold retiredBy, phase, Update, resets in *.
  destruct (started g); cbn [negb andb] in *.
  - destruct (gameOver g); cbn [negb andb] in *.
    + rewrite Hnr. lia.
    + pose proof (unscored_framePipes i g) as Hf.
      pose proof (unscored_stepPipe (framePipes i g)) as Hs.
      pose proof (scored_stepPipe (framePipes i g)) as Hsc.
      pose proof (scored_framePipes i g) as Hsf.
      assert (Hfl' : Forall flagged (map stepPipe (framePipes i g))).
      { apply Forall_forall. intros p' [p [<- Hin]]%in_map_iff.
        apply flagged_stepPipe.
        pose proof (framePipes_flagged i g Hfl) as Hq.
        rewrite Forall_forall in Hq. now apply Hq. }
      pose proof (scored_retirePipes _ Hfl') as Hr.
      rewrite length_map in Hr.
      rewrite runFrame_score, runFrame_pipes'.
      rewrite bump_no_overflow by lia. lia.
  - destruct (keySpace i); cbn [score pipes set_started]; lia.
Qed.

Lemma run_accounting ins g :
  noReset g ins ->
  Forall flagged (pipes g) ->
  (minInt <= score g)%Z ->
  (score g + Z.of_nat (unscored (pipes g)) + Z.of_nat (length ins)
   <= maxInt)%Z ->
  (score (run g ins) + Z.of_nat (scored (pipes g))
   = score g + Z.of_nat (retiredIn g ins)
     + Z.of_nat (scored (pipes (run g ins))))%Z.
Proof.
  revert g. induction ins as [| i rest IH]; intros g Hnr Hfl Hlo Hhi.
  - unfold run. simpl. lia.
  - destruct Hnr as [Hr Hrest]. cbn [length] in Hhi.
    destruct (Update_score_step g i Hr Hlo) as [H1 H2]; [lia |].
    pose proof (Update_accounting g i Hr Hfl Hlo) as H3.
    pose proof (IH (Update g i) Hrest (Update_flagged g i Hfl)) as H4.
    unfold run in *. cbn [fold_left retiredIn]. lia.
Qed.

Lemma run_reachable g ins : reachable g -> reachable (run g ins).
Proof.
  unfold run. revert g. induction ins as [| i rest IH]; intros g H; simpl.
  - exact H.
  - apply IH. now constructor.
Qed.

Lemma noReset_without_keyR ins g :
  Forall (fun j => keyR j = false) ins -> noReset g ins.
Proof.
  intros H. revert g. induction H as [| j js Hj _ IH]; intros g; simpl.
  - exact I.
  - split; [| apply IH]. unfold resets. rewrite Hj. apply andb_false_r.
Qed.

(** C5. Take any run inside one session (no frame of it performs a reset,
    and the int counter has room for it), started in a reachable state, and
    any frame [i] of it, entered in state [gk].  Then
    - the score never decreases along the run;
    - a frame outside the running phase leaves the score alone, and a
      running frame adds one per pipe of the frame that crosses;
    - a pipe crosses exactly in the frame that takes its trailing edge
      x + pipeWidth from at or right of the bird's centre to the left of it;
      the frame sets its flag, and a pipe whose flag is set is never counted
      again however often it is moved;
    - over the whole run the score grows by the number of pipes that were
      scored: those retired during the run plus the change in the number of
      flagged pipes on screen. *)
Theorem score_counts_each_pipe_once
    (g : Game) (ins1 : list Input) (i : Input) (ins2 : list Input) :
  reachable g ->
  noReset g (ins1 ++ i :: ins2) ->
  (score g + Z.of_nat (unscored (pipes g))
   + Z.of_nat (length (ins1 ++ i :: ins2)) <= maxInt)%Z ->
  let gk := run g ins1 in
  let fp := framePipes i gk in
  ((score g <= score gk)%Z /\
   (score gk <= score (Update gk i))%Z /\
   (score (Update gk i) <= score (run g (ins1 ++ i :: ins2)))%Z) /\
  (phase gk <> Running -> score (Update gk i) = score gk) /\
  (phase gk = Running ->
   score (Update gk i) = (score gk + Z.of_nat (length (crossers fp)))%Z) /\
  (forall p, In p fp ->
     (In p (crossers fp) <->
      inject_Z centerX <= x p + inject_Z pipeWidth /\
      x p - inject_Z pipeSpeed + inject_Z pipeWidth < inject_Z centerX) /\
     passed (stepPipe p) = passed p || crossing (movePipe p) /\
     (passed (stepPipe p) = true ->
      forall k, crossing (movePipe (Nat.iter k stepPipe (stepPipe p)))
                = false)) /\
  (score (run g (ins1 ++ i :: ins2)) + Z.of_nat (scored (pipes g))
   = score g + Z.of_nat (retiredIn g (ins1 ++ i :: ins2))
     + Z.of_nat (scored (pipes (run g (ins1 ++ i :: ins2)))))%Z.
Proof.
  intros Hreach Hnr Hbound gk fp.
  pose proof (reachable_score_range g Hreach) as [Hlo _].
  pose proof (reachable_flagged g Hreach) as Hfl.
  pose proof Hnr as Hnr0.
  apply noReset_app in Hnr as [Hnr1 [Hri Hnr2]]. fold gk in Hri, Hnr2.
  rewrite length_app in Hbound. cbn [length] in Hbound.
  destruct (run_score_mono ins1 g Hnr1 Hlo) as [Hm1 Hb1]; [lia |].
  fold gk in Hm1, Hb1.
  pose proof (reachable_score_range gk (run_reachable g ins1 Hreach))
    as [Hlok _].
  destruct (Update_score_step gk i Hri Hlok) as [Hm2 Hb2]; [lia |].
  destruct (run_score_mono ins2 (Update gk i) Hnr2) as [Hm3 _]; [lia | lia |].
  assert (Hrun : run g (ins1 ++ i :: ins2) = run (Update gk i) ins2).
  { rewrite run_app. reflexivity. }
  split; [rewrite Hrun; now repeat split |].
  split.
  { intros Hph. unfold Update, resets, phase in *.
    destruct (started gk); cbn [negb andb] in *.
    - destruct (gameOver gk); cbn [negb andb] in *;
        [now rewrite Hri | congruence].
    - now destruct (keySpace i). }
  split.
  { intros Hph. rewrite (Update_Running gk i Hph), runFrame_score.
    fold fp. apply bump_no_overflow; [exact Hlok |].
    pose proof (unscored_framePipes i gk) as Hf.
    pose proof (unscored_stepPipe fp) as Hs. fold fp in Hf. lia. }
  split.
  { intros p Hin.
    assert (Hp : flagged p).
    { pose proof (framePipes_flagged i gk
                    (reachable_flagged gk (run_reachable g ins1 Hreach)))
        as Hq.
      rewrite Forall_forall in Hq. now apply Hq. }
    split; [| split].
    - unfold crossers. rewrite filter_In, (crossing_first_frame p Hp). tauto.
    - apply stepPipe_passed.
    - intros Hpass k. now apply never_scored_again. }
  apply run_accounting; try assumption.
  rewrite length_app. cbn [length]. lia.
Qed.

(** *** A session that scores *)

Lemma noReset_forallb ins g :
  forallb (fun j => negb (keyR j)) ins = true -> noReset g ins.
Proof.
  intros H. apply noReset_without_keyR. apply Forall_forall.
  intros j Hj. rewrite forallb_forall in H. specialize (H j Hj).
  now destruct (keyR j).
Qed.

Lemma score_counts_each_pipe_once_witness :
  let ins1 := hover 17 ++ flap :: repeat idle 8 in
  let gk := run initGame ins1 in
  (phase gk = Running /\ score gk = 0%Z /\
   map (fun p => Qred (x p)) (framePipes idle gk) = [200; 450]) /\
  (score (Update gk idle)
   = score gk + Z.of_nat (length (crossers (framePipes idle gk))))%Z /\
  score (Update gk idle) = 1%Z.
Proof.
  intros ins1 gk.
  assert (Hph : phase gk = Running) by (vm_compute; reflexivity).
  assert (Hnr : noReset initGame (ins1 ++ idle :: [flap]))
    by (apply noReset_forallb; vm_compute; reflexivity).
  assert (Hb : (score initGame + Z.of_nat (unscored (pipes initGame))
                + Z.of_nat (length (ins1 ++ idle :: [flap])) <= maxInt)%Z)
    by (vm_compute; discriminate).
  pose proof (score_counts_each_pipe_once
                initGame ins1 idle [flap] reach_init Hnr Hb) as H.
  cbv zeta in H. destruct H as (_ & _ & Hstep & _).
  split; [split; [exact Hph | split; vm_compute; reflexivity] |].
  split; [exact (Hstep Hph) |].
  vm_compute. reflexivity.
Defined.

(** ** The number model is exact on reachable states *)

Lemma halfInteger_plus a b :
  halfInteger a -> halfInteger b -> halfInteger (a + b).
Proof.
  intros [n Hn] [m Hm]. exists (n + m)%Z. rewrite inject_Z_plus. lra.
Qed.

Lemma halfInteger_inject z : halfInteger (inject_Z z).
Proof.
  exists (2 * z)%Z. rewrite inject_Z_mult. reflexivity.
Qed.

Lemma halfInteger_half : halfInteger gravity.
Proof. exists 1%Z. reflexivity. Qed.

Lemma halfInteger_clampY y : halfInteger y -> halfInteger (clampY y).
Proof.
  intros H. unfold clampY.
  destruct (Qgtb y (inject_Z floorY)); [apply halfInteger_inject |].
  destruct (Qltb y 0); [apply (halfInteger_inject 0) | exact H].
Qed.

Lemma evenInteger_positive q : evenInteger q -> 0 < q -> 2 <= q.
Proof.
  intros [n Hn] Hq. rewrite Hn in *.
  assert (H : (0 < n)%Z).
  { apply Z.nle_gt. intros Hle. rewrite Zle_Qle in Hle.
    change (inject_Z 0) with 0 in Hle. lra. }
  assert (H1 : (1 <= n)%Z) by lia. rewrite Zle_Qle in H1.
  change (inject_Z 1) with 1 in H1. lra.
Qed.

Lemma chain_spawn c ps raw :
  chain c ps -> c == 0 -> chain (inject_Z pipeSpacing) (ps ++ [newPipe raw]).
Proof.
  intros Hc H0 j p. rewrite rev_app_distr. cbn [rev app].
  change (inject_Z pipeSpacing) with 250.
  destruct j as [| j]; cbn [nth_error].
  - intros [= <-]. reflexivity.
  - intros Hj. rewrite (Hc j p Hj), H0, Nat2Z.inj_succ.
    unfold Z.succ. rewrite inject_Z_plus. change (inject_Z 1) with 1. lra.
Qed.

Lemma chain_stepPipe c ps :
  chain c ps -> chain (c - inject_Z pipeSpeed) (map stepPipe ps).
Proof.
  intros Hc j p. rewrite <- map_rev, nth_error_map.
  destruct (nth_error (rev ps) j) as [q |] eqn:Hq; [| discriminate].
  intros [= <-]. rewrite stepPipe_x, (Hc j q Hq).
  change (inject_Z pipeSpeed) with 2. lra.
Qed.

Lemma chain_tl c ps : chain c ps -> chain c (tl ps).
Proof.
  intros Hc j p Hj. destruct ps as [| a rest]; [exact (Hc j p Hj) |].
  apply Hc. cbn [rev tl] in *. rewrite nth_error_app1; [exact Hj |].
  apply nth_error_Some. congruence.
Qed.

Lemma chain_retirePipes c ps : chain c ps -> chain c (retirePipes ps).
Proof.
  intros Hc. destruct (retirePipes_cases ps) as [-> | ->];
    [exact Hc | now apply chain_tl].
Qed.

(** In a chain every later pipe is at least 250 right of the first. *)
Lemma chain_head c a rest p :
  chain c (a :: rest) -> In p rest -> x a + 250 <= x p.
Proof.
  intros Hc Hin. apply in_rev in Hin.
  apply In_nth_error in Hin as [j Hj].
  assert (Hlt : (j < length (rev rest))%nat)
    by (apply nth_error_Some; congruence).
  assert (Hp : nth_error (rev (a :: rest)) j = Some p)
    by (cbn [rev]; now rewrite nth_error_app1).
  assert (Ha : nth_error (rev (a :: rest)) (length (rev rest)) = Some a).
  { cbn [rev]. rewrite nth_error_app2, Nat.sub_diag by lia. reflexivity. }
  rewrite (Hc _ _ Hp), (Hc _ _ Ha).
  assert (Hz : (Z.of_nat j + 1 <= Z.of_nat (length (rev rest)))%Z) by lia.
  rewrite Zle_Qle, inject_Z_plus in Hz. change (inject_Z 1) with 1 in Hz.
  lra.
Qed.

Lemma left_retirePipes c ps :
  chain c ps -> Forall (fun p => -52 <= x p) ps ->
  Forall (fun p => -50 <= x p) (retirePipes ps).
Proof.
  intros Hc Hl. destruct ps as [| a rest]; [constructor |].
  unfold retirePipes. change (inject_Z pipeWidth) with 50.
  destruct (Qltb_spec (x a + 50) 0) as [Hoff | Hon].
  - apply Forall_forall. intros p Hp.
    pose proof (chain_head c a rest p Hc Hp).
    apply Forall_inv in Hl. lra.
  - apply Qnot_lt_le in Hon. constructor; [lra |].
    apply Forall_forall. intros p Hp.
    pose proof (chain_head c a rest p Hc Hp). lra.
Qed.

Lemma exact_initGame : exact initGame.
Proof.
  constructor; cbn.
  - split; [exists 500%Z; reflexivity | split; discriminate].
  - split; [exists 0%Z; reflexivity |].
    split; [split; discriminate | discriminate].
  - split; [exists 250%Z; reflexivity |].
    split; [split; discriminate | congruence].
  - intros [| j] p; discriminate.
  - constructor.
  - constructor.
Qed.

Lemma heightOk_newPipe raw : heightOk (newPipe raw).
Proof.
  split; [eexists; reflexivity | apply newPipe_height_sharp].
Qed.

Lemma runFrame_exact i g :
  gameOver g = false -> exact g -> exact (runFrame i g).
Proof.
  intros Hgo [[Hyh Hyr] [Hvh [Hvr Hv480]] [Hch [Hcr Hcp]] Hchain Hleft Hhs].
  specialize (Hv480 Hgo).
  assert (Hjv : halfInteger (birdVelocity (jump i g)) /\
                -6 <= birdVelocity (jump i g) <= 480).
  { unfold jump. destruct (keySpace i); cbn [birdVelocity set_birdVelocity].
    - split; [apply halfInteger_inject | split; discriminate].
    - split; [exact Hvh | lra]. }
  destruct Hjv as [Hjh Hjr].
  assert (Hg : gravity == 1 # 2) by reflexivity.
  (* the countdown and the pipes of the frame *)
  assert (Hfp : chain (nextPipeSpawn (runFrame i g) + inject_Z pipeSpeed)
                      (framePipes i g) /\
                Forall (fun p => -50 <= x p) (framePipes i g) /\
                Forall heightOk (framePipes i g) /\
                evenInteger (nextPipeSpawn (runFrame i g)) /\
                0 <= nextPipeSpawn (runFrame i g) <= 500 /\
                (framePipes i g <> [] -> nextPipeSpawn (runFrame i g) <= 248)).
  { rewrite runFrame_nextPipeSpawn, spawnStep_nextPipeSpawn, framePipes_eq.
    change (inject_Z pipeSpeed) with 2. change (inject_Z pipeSpacing) with 250.
    destruct (Qleb_spec (nextPipeSpawn g) 0) as [Hle | Hgt].
    - assert (H0 : nextPipeSpawn g == 0) by lra.
      split; [| split; [| split; [| split; [| split]]]].
      + intros j p Hj.
        rewrite (chain_spawn _ _ (draw i) Hchain H0 j p Hj).
        change (inject_Z pipeSpacing) with 250. lra.
      + apply Forall_app. split; [exact Hleft |].
        constructor; [discriminate | constructor].
      + apply Forall_app. split; [exact Hhs |].
        constructor; [apply heightOk_newPipe | constructor].
      + exists 124%Z. reflexivity.
      + split; discriminate.
      + intros _. discriminate.
    - apply Qnot_le_lt in Hgt.
      pose proof (evenInteger_positive _ Hch Hgt) as H2.
      split; [| split; [| split; [| split; [| split]]]].
      + intros j p Hj. rewrite (Hchain j p Hj). lra.
      + exact Hleft.
      + exact Hhs.
      + destruct Hch as [n Hn]. exists (n - 1)%Z.
        unfold Z.sub. rewrite inject_Z_plus, inject_Z_opp.
        change (inject_Z 1) with 1. lra.
      + lra.
      + intros Hne. specialize (Hcp Hne). lra. }
  destruct Hfp as (Hfc & Hfl & Hfh & Hne & Hnr & Hnp).
  constructor.
  - rewrite runFrame_birdY. split; [| apply clampY_range].
    apply halfInteger_clampY.
    apply halfInteger_plus; [exact Hyh |].
    apply halfInteger_plus; [exact Hjh | apply halfInteger_half].
  - rewrite runFrame_birdVelocity.
    split; [apply halfInteger_plus; [exact Hjh | apply halfInteger_half] |].
    split; [lra |].
    intros Hover. rewrite runFrame_gameOver in Hover.
    apply orb_false_iff in Hover as [Hover _].
    apply orb_false_iff in Hover as [Hover _].
    unfold outOfField in Hover. apply orb_false_iff in Hover as [Hhi _].
    change (inject_Z floorY) with 480 in Hhi.
    destruct (Qgtb_spec (birdY g + (birdVelocity (jump i g) + gravity)) 480)
      as [| Hn]; [discriminate |].
    apply Qnot_lt_le in Hn. lra.
  - split; [exact Hne |]. split; [exact Hnr |].
    rewrite runFrame_pipes'. intros Hq. apply Hnp. intros He.
    apply Hq. rewrite He. reflexivity.
  - rewrite runFrame_pipes'. apply chain_retirePipes.
    intros j p Hj.
    rewrite (chain_stepPipe _ _ Hfc j p Hj). lra.
  - rewrite runFrame_pipes'.
    apply left_retirePipes
      with (c := nextPipeSpawn (runFrame i g) + inject_Z pipeSpeed
                 - inject_Z pipeSpeed).
    + now apply chain_stepPipe.
    + apply Forall_forall. intros p' [p [<- Hin]]%in_map_iff.
      rewrite stepPipe_x. change (inject_Z pipeSpeed) with 2.
      rewrite Forall_forall in Hfl. specialize (Hfl p Hin). lra.
  - rewrite runFrame_pipes'. apply Forall_retirePipes.
    apply Forall_forall. intros p' [p [<- Hin]]%in_map_iff.
    rewrite Forall_forall in Hfh. specialize (Hfh p Hin).
    unfold heightOk in *. now rewrite stepPipe_height.
Qed.

Lemma Update_exact g i : exact g -> exact (Update g i).
Proof.
  intros H. unfold Update. destruct (started g); cbn [negb].
  - destruct (gameOver g) eqn:Hgo.
    + destruct (keyR i); [apply exact_initGame | exact H].
    + now apply runFrame_exact.
  - destruct (keySpace i); [| exact H].
    destruct H. constructor; assumption.
Qed.

Lemma reachable_exact g : reachable g -> exact g.
Proof.
  induction 1 as [| g i _ IH]; [apply exact_initGame | now apply Update_exact].
Qed.

(** The pipes of a reachable state are at integer positions between -50
    and 498, in increasing order from the front of the list. *)
Lemma reachable_pipes_on_screen g p :
  reachable g -> In p (pipes g) -> -50 <= x p <= 498.
Proof.
  intros Hr Hin. destruct (reachable_exact g Hr) as [_ _ (_ & _ & Hc) Hch Hl _].
  split.
  - rewrite Forall_forall in Hl. now apply Hl.
  - assert (Hne : pipes g <> []) by (intros E; rewrite E in Hin; inversion Hin).
    specialize (Hc Hne).
    apply in_rev in Hin. apply In_nth_error in Hin as [j Hj].
    rewrite (Hch j p Hj).
    assert (Hz : (0 <= Z.of_nat j)%Z) by lia.
    rewrite Zle_Qle in Hz. change (inject_Z 0) with 0 in Hz. lra.
Qed.

(** ** Scenarios *)

(** One frame of gravity from rest at 250: velocity 1/2, position 250.5. *)
Example gravity_frame :
  let g' := Update (mkGame 250 0 [] 0%Z false true 500) idle in
  birdVelocity g' == 1 # 2 /\ birdY g' == 501 # 2 /\ phase g' = Running.
Proof. repeat split. Qed.

(** A pipe spawned at 500 is at 250 after 125 frames. *)
Example pipe_after_125_frames :
  x (Nat.iter 125 stepPipe (newPipe 130)) == 250.
Proof. vm_compute. reflexivity. Qed.

(** The first frame only starts the session; nothing moves. *)
Example first_frame_starts :
  Update initGame flap = set_started true initGame /\
  Update initGame idle = initGame.
Proof. split; reflexivity. Qed.

(** A hovering player has cleared two pipes after 553 frames: the first has
    left the screen, the second is behind the bird, the third on its way. *)
Example hover_session :
  let g := run initGame (hover 24) in
  score g = 2%Z /\ phase g = Running /\
  map (fun p => (Qred (x p), passed p)) (pipes g)
  = [(146, true); (396, false)] /\
  retiredIn initGame (hover 24) = 1%nat.
Proof. vm_compute. repeat split. Qed.

(** ** Phases along a run *)

Lemma reachable_not_started g :
  reachable g -> started g = false -> gameOver g = false.
Proof.
  induction 1 as [| g i _ IH]; [reflexivity |].
  unfold Update. destruct (started g) eqn:Hs; cbn [negb].
  - destruct (gameOver g) eqn:Hg.
    + destruct (keyR i); [reflexivity | congruence].
    + rewrite runFrame_started. congruence.
  - destruct (keySpace i); [discriminate |]. intros _. now apply IH.
Qed.

Lemma clampY_id y : outOfField y = false -> clampY y = y.
Proof.
  unfold outOfField, clampY. intros [H1 H2]%orb_false_iff.
  now rewrite H1, H2.
Qed.

Lemma runFrame_phase i g :
  phase g = Running ->
  phase (runFrame i g)
  = if gameOver (runFrame i g) then GameOver else Running.
Proof.
  intros [Hs _]%phase_Running. unfold phase.
  now rewrite runFrame_started, Hs.
Qed.

(** X1. The phase after a frame, in every reachable state: from NotStarted
    it is Running if the space key is down and NotStarted otherwise; from
    GameOver it is NotStarted if the R key is down and GameOver otherwise;
    from Running it is GameOver exactly when a clamp fires or a pipe of the
    frame collides with the bird. *)
Theorem phase_transitions (g : Game) (i : Input) :
  reachable g ->
  (phase g = NotStarted ->
   phase (Update g i) = if keySpace i then Running else NotStarted) /\
  (phase g = GameOver ->
   phase (Update g i) = if keyR i then NotStarted else GameOver) /\
  (phase g = Running ->
   phase (Update g i)
   = if outOfField (birdY g + (birdVelocity (jump i g) + gravity))
        || existsb (fun p => collides (birdY (Update g i)) (movePipe p))
                   (framePipes i g)
     then GameOver else Running).
Proof.
  intros Hr. split; [| split]; intros Hp.
  - rewrite (Update_NotStarted g i Hp).
    apply phase_NotStarted in Hp.
    pose proof (reachable_not_started g Hr Hp) as Hg.
    destruct (keySpace i).
    + unfold phase. cbn. now rewrite Hg.
    + unfold phase. now rewrite Hp.
  - rewrite (Update_GameOver g i Hp).
    destruct (keyR i); [reflexivity | exact Hp].
  - rewrite (Update_Running g i Hp), (runFrame_phase i g Hp).
    rewrite runFrame_gameOver.
    apply phase_Running in Hp as [_ Hg]. rewrite Hg, orb_false_r.
    reflexivity.
Qed.

(** *** Runs without the reset key *)

Lemma run_cons g i ins : run g (i :: ins) = run (Update g i) ins.
Proof. reflexivity. Qed.

Lemma run_GameOver_stays g ins :
  phase g = GameOver -> Forall (fun j => keyR j = false) ins -> run g ins = g.
Proof.
  intros Hp Hall. induction Hall as [| j js Hj _ IH]; [reflexivity |].
  rewrite run_cons, (Update_GameOver g j Hp), Hj. exact IH.
Qed.

Lemma Update_started_kept g i :
  started g = true -> keyR i = false -> started (Update g i) = true.
Proof.
  intros Hs Hr. unfold Update. rewrite Hs. cbn [negb].
  destruct (gameOver g); [now rewrite Hr | now rewrite runFrame_started].
Qed.

(** A frame entered in the running phase ends running or game over. *)
Lemma Update_Running_cases g i :
  phase g = Running ->
  phase (Update g i) = Running \/ phase (Update g i) = GameOver.
Proof.
  intros Hp. rewrite (Update_Running g i Hp), (runFrame_phase i g Hp).
  destruct (gameOver (runFrame i g)); auto.
Qed.

(** A run without reset that is running at its end was running after its
    first frame. *)
Lemma running_after_first g i ins :
  phase g = Running -> Forall (fun j => keyR j = false) ins ->
  phase (run g (i :: ins)) = Running -> phase (Update g i) = Running.
Proof.
  intros Hp Hall Hend.
  destruct (Update_Running_cases g i Hp) as [H | H]; [exact H |].
  rewrite run_cons, (run_GameOver_stays _ ins H Hall) in Hend. congruence.
Qed.

(** A run without reset started in the running phase ends running or game
    over. *)
Lemma run_Running_cases ins g :
  phase g = Running -> Forall (fun j => keyR j = false) ins ->
  phase (run g ins) = Running \/ phase (run g ins) = GameOver.
Proof.
  intros Hp Hall. revert g Hp.
  induction Hall as [| j js Hj Hjs IH]; intros g Hp; [now left |].
  rewrite run_cons.
  destruct (Update_Running_cases g j Hp) as [H | H]; [now apply IH |].
  right. now rewrite (run_GameOver_stays _ js H Hjs).
Qed.

(** One frame that stays in the running phase: the clamps did not fire. *)
Lemma surviving_frame g i :
  phase g = Running -> phase (Update g i) = Running ->
  birdVelocity (Update g i) = birdVelocity (jump i g) + gravity /\
  birdY (Update g i) = birdY g + (birdVelocity (jump i g) + gravity).
Proof.
  intros Hp Hp'. rewrite (Update_Running g i Hp) in *.
  split; [apply runFrame_birdVelocity |].
  rewrite runFrame_birdY. apply clampY_id.
  apply phase_Running in Hp' as [_ Hg]. rewrite runFrame_gameOver in Hg.
  apply orb_false_iff in Hg as [Hg _]. now apply orb_false_iff in Hg as [Hg _].
Qed.

(** Free fall: the bird after [n] frames without a key, still running. *)
Lemma free_fall ins g :
  phase g = Running -> Forall quiet ins -> phase (run g ins) = Running ->
  let n := inject_Z (Z.of_nat (length ins)) in
  birdVelocity (run g ins) == birdVelocity g + n * (1 # 2) /\
  birdY (run g ins) == birdY g + n * birdVelocity g + n * (n + 1) * (1 # 4).
Proof.
  intros Hp Hall. revert g Hp.
  induction Hall as [| j js [Hsp Hr] Hjs IH]; intros g Hp Hend.
  - cbn. split; ring.
  - assert (HnoR : Forall (fun j => keyR j = false) js).
    { apply Forall_impl with (2 := Hjs). now intros a [_ Ha]. }
    pose proof (running_after_first g j js Hp HnoR Hend) as Hp1.
    destruct (surviving_frame g j Hp Hp1) as [Hv Hy].
    rewrite run_cons in *. destruct (IH (Update g j) Hp1 Hend) as [IHv IHy].
    assert (Hj : jump j g = g) by (unfold jump; now rewrite Hsp).
    rewrite Hj in Hv, Hy. cbv zeta. cbn [length].
    rewrite Nat2Z.inj_succ. unfold Z.succ. rewrite inject_Z_plus.
    change (inject_Z 1) with 1.
    set (m := inject_Z (Z.of_nat (length js))) in *.
    rewrite IHv, IHy, Hv, Hy. unfold gravity. split; ring.
Qed.

(** Rising: the bird after [n] frames with the space key held, still
    running. *)
Lemma held_rise ins g :
  phase g = Running -> Forall held ins -> phase (run g ins) = Running ->
  birdY (run g ins) == birdY g - inject_Z (Z.of_nat (length ins)) * (11 # 2).
Proof.
  intros Hp Hall. revert g Hp.
  induction Hall as [| j js [Hsp Hr] Hjs IH]; intros g Hp Hend.
  - cbn. ring.
  - assert (HnoR : Forall (fun j => keyR j = false) js).
    { apply Forall_impl with (2 := Hjs). now intros a [_ Ha]. }
    pose proof (running_after_first g j js Hp HnoR Hend) as Hp1.
    destruct (surviving_frame g j Hp Hp1) as [_ Hy].
    rewrite run_cons in *. pose proof (IH (Update g j) Hp1 Hend) as IHy.
    assert (Hj : birdVelocity (jump j g) = inject_Z jumpStrength)
      by (unfold jump; now rewrite Hsp).
    rewrite Hj in Hy. cbn [length].
    rewrite Nat2Z.inj_succ. unfold Z.succ. rewrite inject_Z_plus.
    change (inject_Z 1) with 1.
    rewrite IHy, Hy. unfold gravity. change (inject_Z jumpStrength) with (-6).
    ring.
Qed.

Lemma quiet_noR ins : Forall quiet ins -> Forall (fun j => keyR j = false) ins.
Proof. intros H. apply Forall_impl with (2 := H). now intros a [_ Ha]. Qed.

Lemma held_noR ins : Forall held ins -> Forall (fun j => keyR j = false) ins.
Proof. intros H. apply Forall_impl with (2 := H). now intros a [_ Ha]. Qed.

(** X2. From a reachable Running state, 57 or more frames without the space
    key and without the R key end in the GameOver phase. *)
Theorem gravity_wins (g : Game) (ins : list Input) :
  reachable g -> phase g = Running -> Forall quiet ins ->
  (57 <= length ins)%nat ->
  phase (run g ins) = GameOver.
Proof.
  intros Hr Hp Hq Hlen.
  rewrite <- (firstn_skipn 57 ins), run_app.
  assert (Hsplit : Forall quiet (firstn 57 ins ++ skipn 57 ins))
    by now rewrite firstn_skipn.
  apply Forall_app in Hsplit as [Hq1 Hq2]. apply quiet_noR in Hq2.
  assert (Hl : length (firstn 57 ins) = 57%nat) by (rewrite length_firstn; lia).
  set (pre := firstn 57 ins) in *.
  destruct (run_Running_cases pre g Hp (quiet_noR _ Hq1)) as [Hrun | Hover].
  - exfalso.
    destruct (free_fall pre g Hp Hq1 Hrun) as [_ Hy]. rewrite Hl in Hy.
    change (inject_Z (Z.of_nat 57)) with 57 in Hy.
    pose proof (reachable_inField _ (run_reachable g pre Hr)) as [_ Hhi].
    pose proof (reachable_inField g Hr) as [Hlo _].
    destruct (reachable_exact g Hr) as [_ (_ & [Hv _] & _) _ _ _ _].
    change (inject_Z floorY) with 480 in Hhi. lra.
  - rewrite (run_GameOver_stays _ _ Hover Hq2). exact Hover.
Qed.

(** X3. From a reachable Running state, 88 or more frames with the space key
    held and without the R key end in the GameOver phase. *)
Theorem held_jump_hits_ceiling (g : Game) (ins : list Input) :
  reachable g -> phase g = Running -> Forall held ins ->
  (88 <= length ins)%nat ->
  phase (run g ins) = GameOver.
Proof.
  intros Hr Hp Hq Hlen.
  rewrite <- (firstn_skipn 88 ins), run_app.
  assert (Hsplit : Forall held (firstn 88 ins ++ skipn 88 ins))
    by now rewrite firstn_skipn.
  apply Forall_app in Hsplit as [Hq1 Hq2]. apply held_noR in Hq2.
  assert (Hl : length (firstn 88 ins) = 88%nat) by (rewrite length_firstn; lia).
  set (pre := firstn 88 ins) in *.
  destruct (run_Running_cases pre g Hp (held_noR _ Hq1)) as [Hrun | Hover].
  - exfalso.
    pose proof (held_rise pre g Hp Hq1 Hrun) as Hy. rewrite Hl in Hy.
    change (inject_Z (Z.of_nat 88)) with 88 in Hy.
    pose proof (reachable_inField _ (run_reachable g pre Hr)) as [Hlo _].
    pose proof (reachable_inField g Hr) as [_ Hhi].
    change (inject_Z floorY) with 480 in Hhi. lra.
  - rewrite (run_GameOver_stays _ _ Hover Hq2). exact Hover.
Qed.

Lemma chain_last c ps p : chain c (ps ++ [p]) -> x p == c + 250.
Proof.
  intros Hc. rewrite (Hc 0%nat p).
  - change (inject_Z (Z.of_nat 0)) with 0. ring.
  - now rewrite rev_app_distr.
Qed.

Lemma chain_adjacent c l1 p q l2 :
  chain c (l1 ++ p :: q :: l2) -> x q == x p + 250.
Proof.
  intros Hc.
  assert (Hrev : rev (l1 ++ p :: q :: l2) = rev l2 ++ q :: p :: rev l1).
  { rewrite rev_app_distr. cbn [rev]. now rewrite <- !app_assoc. }
  assert (Hq : nth_error (rev (l1 ++ p :: q :: l2)) (length (rev l2)) = Some q).
  { rewrite Hrev, nth_error_app2, Nat.sub_diag by lia. reflexivity. }
  assert (Hp : nth_error (rev (l1 ++ p :: q :: l2)) (S (length (rev l2)))
               = Some p).
  { rewrite Hrev, nth_error_app2 by lia.
    replace (S (length (rev l2)) - length (rev l2))%nat with 1%nat by lia.
    reflexivity. }
  rewrite (Hc _ _ Hq), (Hc _ _ Hp), Nat2Z.inj_succ.
  unfold Z.succ. rewrite inject_Z_plus. change (inject_Z 1) with 1. ring.
Qed.

Lemma chain_length c ps :
  chain c ps -> c <= 248 -> Forall (fun p => -50 <= x p) ps ->
  (length ps <= 3)%nat.
Proof.
  intros Hc Hc248 Hl.
  destruct ps as [| a rest]; [simpl; lia |].
  assert (Ha : nth_error (rev (a :: rest)) (length (rev rest)) = Some a).
  { cbn [rev]. rewrite nth_error_app2, Nat.sub_diag by lia. reflexivity. }
  apply Forall_inv in Hl. rewrite (Hc _ _ Ha) in Hl.
  rewrite length_rev in Hl. cbn [length].
  destruct (Nat.le_gt_cases (length rest) 2) as [Hle | Hgt]; [lia |].
  exfalso.
  assert (Hz : (3 <= Z.of_nat (length rest))%Z) by lia.
  rewrite Zle_Qle in Hz. change (inject_Z 3) with 3 in Hz. lra.
Qed.

Lemma reachable_pipes_length g : reachable g -> (length (pipes g) <= 3)%nat.
Proof.
  intros Hr.
  pose proof (reachable_exact g Hr) as [_ _ (_ & _ & Hc) Hch Hl _].
  destruct (pipes g) as [| a rest] eqn:E; [simpl; lia |].
  rewrite <- E in *. apply (chain_length (nextPipeSpawn g)); try assumption.
  apply Hc. rewrite E. discriminate.
Qed.

(** X4. In a reachable state there are at most three pipes, consecutive pipes
    are exactly pipeSpacing apart, the last one is pipeSpacing right of the
    spawn countdown, and every pipe has -50 <= x <= 498, so that its span
    touches the screen. *)
Theorem pipes_evenly_spaced (g : Game) :
  reachable g ->
  (length (pipes g) <= 3)%nat /\
  (forall l1 p q l2, pipes g = l1 ++ p :: q :: l2 ->
     x q == x p + inject_Z pipeSpacing) /\
  (forall l p, pipes g = l ++ [p] ->
     x p == nextPipeSpawn g + inject_Z pipeSpacing) /\
  (forall p, In p (pipes g) ->
     -50 <= x p <= 498 /\ 0 <= x p + inject_Z pipeWidth /\
     x p <= inject_Z screenWidth).
Proof.
  intros Hr.
  pose proof (reachable_exact g Hr) as [_ _ (_ & _ & Hc) Hch Hl _].
  split; [| split; [| split]].
  - now apply reachable_pipes_length.
  - intros l1 p q l2 E. rewrite E in Hch.
    exact (chain_adjacent _ _ _ _ _ Hch).
  - intros l p E. rewrite E in Hch. exact (chain_last _ _ _ Hch).
  - intros p Hin. pose proof (reachable_pipes_on_screen g p Hr Hin) as [H1 H2].
    change (inject_Z pipeWidth) with 50. change (inject_Z screenWidth) with 500.
    repeat split; lra.
Qed.

(** X5. In a reachable state the spawn countdown is an even integer between 0
    and screenWidth; a running frame spawns a pipe exactly when it is 0, and
    then leaves it at pipeSpacing - pipeSpeed, and otherwise lowers it by
    pipeSpeed. *)
Theorem countdown_cycle (g : Game) (i : Input) :
  reachable g ->
  (exists n : Z, nextPipeSpawn g == inject_Z (2 * n)) /\
  0 <= nextPipeSpawn g <= inject_Z screenWidth /\
  (phase g = Running ->
   (nextPipeSpawn g == 0 ->
    framePipes i g = pipes g ++ [newPipe (draw i)] /\
    nextPipeSpawn (Update g i) == inject_Z (pipeSpacing - pipeSpeed)) /\
   (~ nextPipeSpawn g == 0 ->
    framePipes i g = pipes g /\
    nextPipeSpawn (Update g i) == nextPipeSpawn g - inject_Z pipeSpeed)).
Proof.
  intros Hr.
  pose proof (reachable_exact g Hr) as [_ _ ([n Hn] & Hrange & _) _ _ _].
  split; [exists n; rewrite inject_Z_mult; exact Hn |].
  split; [exact Hrange |].
  intros Hp. rewrite (Update_Running g i Hp), runFrame_nextPipeSpawn.
  rewrite spawnStep_nextPipeSpawn, framePipes_eq.
  destruct (Qleb_spec (nextPipeSpawn g) 0) as [Hle | Hgt].
  - split; [intros _; split; reflexivity |].
    intros Hne. exfalso. apply Hne. lra.
  - split; [intros H0; exfalso; apply Hgt; lra |].
    intros _. split; reflexivity.
Qed.

(** X6. In a reachable state the flag of a pipe is set exactly when its
    trailing edge is left of the bird's centre, and a pipe whose flag is set
    does not collide with the bird, before or after it is moved, at any
    height. *)
Theorem scored_flag_means_behind (g : Game) (p : Pipe) :
  reachable g -> In p (pipes g) ->
  (passed p = true <-> x p + inject_Z pipeWidth < inject_Z centerX) /\
  (passed p = true -> forall y, collides y p = false) /\
  (passed p = true -> forall y, collides y (movePipe p) = false).
Proof.
  intros Hr Hin. pose proof (reachable_flagged g Hr) as Hf.
  rewrite Forall_forall in Hf. specialize (Hf p Hin). unfold flagged in Hf.
  assert (Hiff : passed p = true <->
                 x p + inject_Z pipeWidth < inject_Z centerX).
  { rewrite Hf.
    destruct (Qltb_spec (x p + inject_Z pipeWidth) (inject_Z centerX));
      split; intros; try assumption; try reflexivity; try discriminate;
      contradiction. }
  split; [exact Hiff |]. split; intros Hpass y.
  - apply Hiff in Hpass. unfold collides.
    destruct (Qleb_spec (inject_Z centerX) (x p + inject_Z pipeWidth)) as [H|_].
    + exfalso. lra.
    + now rewrite andb_false_r.
  - apply Hiff in Hpass. unfold collides, movePipe. cbn [x height].
    destruct (Qleb_spec (inject_Z centerX)
                (x p - inject_Z pipeSpeed + inject_Z pipeWidth)) as [H|_].
    + exfalso. assert (0 < inject_Z pipeSpeed) by reflexivity. lra.
    + now rewrite andb_false_r.
Qed.

(** X7. A pipe that passes the scoring test of a frame fails the collision
    test of that frame, for every height of the bird. *)
Theorem scoring_excludes_collision (p : Pipe) (y : Q) :
  crossing p = true -> collides y p = false.
Proof.
  unfold crossing, collides. intros [_ H]%andb_true_iff.
  destruct (Qltb_spec (x p + inject_Z pipeWidth) (inject_Z centerX))
    as [Hlt |]; [| discriminate].
  destruct (Qleb_spec (inject_Z centerX) (x p + inject_Z pipeWidth)) as [Hle|_].
  - exfalso. lra.
  - now rewrite andb_false_r.
Qed.

(** X8. On a running frame from a reachable state the first pipe is removed
    exactly when its trailing edge is left of 0 after the move; the rest of
    the list is kept, and the pipe removed has its flag set. *)
Theorem retired_pipe_was_scored (g : Game) (i : Input) (a : Pipe)
    (rest : list Pipe) :
  reachable g -> phase g = Running ->
  map stepPipe (framePipes i g) = a :: rest ->
  (x a + inject_Z pipeWidth < 0 ->
   pipes (Update g i) = rest /\ passed a = true) /\
  (~ x a + inject_Z pipeWidth < 0 -> pipes (Update g i) = a :: rest).
Proof.
  intros Hr Hp E. rewrite (Update_Running g i Hp), runFrame_pipes', E.
  unfold retirePipes.
  destruct (Qltb_spec (x a + inject_Z pipeWidth) 0) as [Hoff | Hon].
  - split; [| intros H; contradiction]. intros _. split; [reflexivity |].
    assert (Hf : flagged a).
    { assert (Hin : In a (map stepPipe (framePipes i g)))
        by (rewrite E; now left).
      apply in_map_iff in Hin as [p [<- Hin]]. apply flagged_stepPipe.
      pose proof (framePipes_flagged i g (reachable_flagged g Hr)) as Hq.
      rewrite Forall_forall in Hq. now apply Hq. }
    unfold flagged in Hf. rewrite Hf.
    destruct (Qltb_spec (x a + inject_Z pipeWidth) (inject_Z centerX))
      as [| Hn]; [reflexivity |].
    exfalso. apply Hn. assert (0 < inject_Z centerX) by reflexivity. lra.
  - split; [intros H; contradiction | reflexivity].
Qed.

Lemma Update_score_budget g i :
  (0 <= score g)%Z ->
  (score g + Z.of_nat (unscored (pipes g)) + 1 <= maxInt)%Z ->
  (0 <= score (Update g i))%Z /\
  (score (Update g i) + Z.of_nat (unscored (pipes (Update g i)))
   <= score g + Z.of_nat (unscored (pipes g)) + 1)%Z.
Proof.
  intros Hlo Hhi. destruct (resets g i) eqn:Hres.
  - unfold resets in Hres.
    apply andb_true_iff in Hres as [[Hs Hg]%andb_true_iff Hr].
    unfold Update. rewrite Hs, Hg, Hr. cbn [negb reset score pipes
      set_nextPipeSpawn set_started set_gameOver set_score set_pipes].
    change (unscored []) with 0%nat. lia.
  - assert (Hmin : (minInt <= score g)%Z).
    { apply Z.le_trans with (2 := Hlo). discriminate. }
    destruct (Update_score_step g i Hres Hmin Hhi) as [H1 H2]. lia.
Qed.

Lemma run_score_budget ins g :
  (0 <= score g)%Z ->
  (score g + Z.of_nat (unscored (pipes g)) + Z.of_nat (length ins)
   <= maxInt)%Z ->
  (0 <= score (run g ins))%Z /\
  (score (run g ins) + Z.of_nat (unscored (pipes (run g ins)))
   <= score g + Z.of_nat (unscored (pipes g)) + Z.of_nat (length ins))%Z.
Proof.
  revert g. induction ins as [| i rest IH]; intros g Hlo Hhi.
  - unfold run. cbn [fold_left length]. lia.
  - cbn [length] in Hhi.
    destruct (Update_score_budget g i Hlo) as [H1 H2]; [lia |].
    destruct (IH (Update g i) H1) as [H3 H4]; [lia |].
    unfold run in *. cbn [fold_left length]. lia.
Qed.

(** X9. After a run of n frames from the initial state, whatever the inputs
    (resets included), the score is between 0 and n, provided n is in the
    range of int. *)
Theorem score_bounded_by_frames (ins : list Input) :
  (Z.of_nat (length ins) <= maxInt)%Z ->
  (0 <= score (run initGame ins) <= Z.of_nat (length ins))%Z.
Proof.
  intros Hlen.
  destruct (run_score_budget ins initGame) as [H1 H2].
  - discriminate.
  - change (score initGame) with 0%Z.
    change (unscored (pipes initGame)) with 0%nat. lia.
  - change (score initGame) with 0%Z in H2.
    change (unscored (pipes initGame)) with 0%nat in H2. lia.
Qed.

(** *** Every gap can be flown through *)

(** X10. For a pipe of a reachable state, a bird strictly between the gap top
    and the gap bottom does not collide with it and is strictly inside the
    field, where neither clamp fires. *)
Theorem gap_is_passable (g : Game) (p : Pipe) (y : Q) :
  reachable g -> In p (pipes g) ->
  height p < y -> y + inject_Z birdSize < height p + inject_Z pipeGap ->
  collides y p = false /\ outOfField y = false /\
  0 < y /\ y < inject_Z floorY.
Proof.
  intros Hr Hin Hlo Hhi.
  destruct (reachable_exact g Hr) as [_ _ _ _ _ Hh].
  rewrite Forall_forall in Hh. destruct (Hh p Hin) as [_ [H20 H329]].
  change (inject_Z birdSize) with 20 in *.
  change (inject_Z pipeGap) with 150 in *.
  change (inject_Z floorY) with 480.
  assert (Hy : 0 < y /\ y < 480) by (split; lra).
  split; [| split; [| exact Hy]].
  - unfold collides. change (inject_Z birdSize) with 20.
    change (inject_Z pipeGap) with 150.
    destruct (Qleb_spec y (height p)) as [H |_]; [exfalso; lra |].
    destruct (Qgeb_spec (y + 20) (height p + 150)) as [H |_]; [exfalso; lra |].
    now rewrite andb_false_r.
  - unfold outOfField. change (inject_Z floorY) with 480.
    destruct (Qgtb_spec y 480) as [H |_]; [exfalso; lra |].
    destruct (Qltb_spec y 0) as [H |_]; [exfalso; lra | reflexivity].
Qed.

Lemma in_Draw g op :
  In op (Draw g) <->
  op = Fill colorBackground \/ op = drawBird g \/
  (exists pipe,
      In pipe (pipes g) /\ (op = drawTop pipe \/ op = drawBottom pipe))
  \/ op = DebugPrintAt (String.append textScorePrefix (Itoa (score g))) 10 10
  \/ (started g = false /\
      op = DebugPrintAt textStartMessage startMessageX startMessageY)
  \/ (gameOver g = true /\
      op = DebugPrintAt textGameOver gameOverMessageX gameOverMessageY).
Proof.
  unfold Draw. rewrite !in_app_iff, in_flat_map.
  assert (Hpipe : (exists pipe, In pipe (pipes g) /\
                     In op [drawTop pipe; drawBottom pipe]) <->
                  (exists pipe, In pipe (pipes g) /\
                     (op = drawTop pipe \/ op = drawBottom pipe))).
  { split; intros [pipe [Hin H]]; exists pipe; (split; [exact Hin |]);
      cbn [In] in *; intuition auto. }
  rewrite Hpipe. clear Hpipe.
  destruct (started g), (gameOver g); cbn [negb In];
    intuition (try discriminate; auto).
Qed.

Lemma Itoa_injective a b : Itoa a = Itoa b -> a = b.
Proof.
  unfold Itoa. intros H.
  assert (Hok : forall z, Z.to_int z <> Decimal.Pos Decimal.Nil /\
                          Z.to_int z <> Decimal.Neg Decimal.Nil).
  { intros [| p | p]; cbn; split; try discriminate;
      intros [= E]; now apply (DecimalPos.Unsigned.to_uint_nonnil p). }
  apply DecimalZ.to_int_inj.
  assert (E : Some (Z.to_int a) = Some (Z.to_int b)).
  { rewrite <- (DecimalString.NilZero.isi (Z.to_int a)) by apply Hok.
    rewrite <- (DecimalString.NilZero.isi (Z.to_int b)) by apply Hok.
    now rewrite H. }
  now injection E.
Qed.

(** X13. Draw prints the score prefix followed by the decimal digits of [n] at
    (10, 10) exactly when [n] is the score. *)
Theorem Draw_shows_the_score (g : Game) (n : Z) :
  In (DebugPrintAt (String.append textScorePrefix (Itoa n)) 10 10) (Draw g)
  <-> n = score g.
Proof.
  rewrite in_Draw. split.
  - intros [H | [H | [[pipe [_ [H | H]]] | [H | [[_ H] | [_ H]]]]]];
      try discriminate.
    injection H as H. now apply Itoa_injective.
  - intros ->. auto 10.
Qed.

(** X14. In a reachable state Draw prints the start prompt exactly in the
    NotStarted phase and the game-over text exactly in the GameOver phase;
    it issues 3 + 2 * (number of pipes) operations in the Running phase, one
    more otherwise, and at most 10. *)
Theorem Draw_messages_follow_phase (g : Game) :
  reachable g ->
  (In (DebugPrintAt textStartMessage startMessageX startMessageY) (Draw g)
   <-> phase g = NotStarted) /\
  (In (DebugPrintAt textGameOver gameOverMessageX gameOverMessageY) (Draw g)
   <-> phase g = GameOver) /\
  length (Draw g)
  = (3 + 2 * length (pipes g)
     + match phase g with Running => 0 | _ => 1 end)%nat /\
  (length (Draw g) <= 10)%nat.
Proof.
  intros Hr. pose proof (reachable_not_started g Hr) as Hns.
  split; [| split; [| split]].
  - rewrite in_Draw, phase_NotStarted. split.
    + intros [H | [H | [[pipe [_ [H | H]]] | [H | [[Hs _] | [_ H]]]]]];
        try discriminate; exact Hs.
    + intros Hs. auto 10.
  - rewrite in_Draw, phase_GameOver. split.
    + intros [H | [H | [[pipe [_ [H | H]]] | [H | [[_ H] | [Hg _]]]]]];
        try discriminate.
      split; [| exact Hg]. destruct (started g); [reflexivity |].
      rewrite Hns in Hg by reflexivity. discriminate.
    + intros [_ Hg]. auto 10.
  - unfold Draw, phase.
    rewrite !length_app, flat_map_constant_length with (c := 2%nat)
      by reflexivity.
    destruct (started g); cbn [negb length].
    + destruct (gameOver g); cbn [length]; lia.
    + rewrite Hns by reflexivity. cbn [length]. lia.
  - pose proof (reachable_pipes_length g Hr) as H3.
    unfold Draw.
    rewrite !length_app, flat_map_constant_length with (c := 2%nat)
      by reflexivity.
    destruct (started g); cbn [negb length].
    + destruct (gameOver g); cbn [length]; lia.
    + rewrite Hns by reflexivity. cbn [length]. lia.
Qed.

Lemma reachable_heights g p :
  reachable g -> In p (pipes g) -> 20 <= height p <= 329.
Proof.
  intros Hr Hin. destruct (reachable_exact g Hr) as [_ _ _ _ _ Hh].
  rewrite Forall_forall in Hh. now destruct (Hh p Hin) as [_ H].
Qed.

(** X15. In a reachable state every rectangle Draw issues has positive width
    and height, lies between top and bottom of the screen that Layout
    returns, reaches into it from the side and is not anti-aliased. *)
Theorem Draw_stays_on_screen (g : Game) (ow oh : Z) (op : DrawOp) :
  reachable g -> In op (Draw g) ->
  onScreen (fst (Layout g ow oh)) (snd (Layout g ow oh)) op.
Proof.
  intros Hr Hin. cbn [Layout fst snd].
  apply in_Draw in Hin
    as [-> | [-> | [[pipe [Hp [-> | ->]]] | [-> | [[_ ->] | [_ ->]]]]]];
    try exact I;
    unfold drawBird, drawTop, drawBottom, drawFilledRect, onScreen;
    change (inject_Z (screenWidth ÷ 2 - birdSize ÷ 2)) with 240;
    change (inject_Z screenWidth) with 500;
    change (inject_Z screenHeight) with 500;
    change (inject_Z pipeWidth) with 50;
    change (inject_Z birdSize) with 20;
    change (inject_Z pipeGap) with 150.
  - pose proof (reachable_inField g Hr) as [Hlo Hhi].
    change (inject_Z floorY) with 480 in Hhi.
    repeat split; try reflexivity; lra.
  - pose proof (reachable_heights g pipe Hr Hp) as [Hlo Hhi].
    pose proof (reachable_pipes_on_screen g pipe Hr Hp) as [Hxl Hxh].
    repeat split; try reflexivity; lra.
  - pose proof (reachable_heights g pipe Hr Hp) as [Hlo Hhi].
    pose proof (reachable_pipes_on_screen g pipe Hr Hp) as [Hxl Hxh].
    repeat split; try reflexivity; lra.
Qed.

(** The collision test against the drawn rectangles. *)
Lemma collides_touches g p :
  0 <= birdY g <= 480 -> 0 <= height p ->
  collides (birdY g) p = true <->
  (x p <= inject_Z centerX <= x p + inject_Z pipeWidth) /\
  (touches (drawBird g) (drawTop p) \/ touches (drawBird g) (drawBottom p)).
Proof.
  intros [Hlo Hhi] Hh. unfold collides, drawBird, drawTop, drawBottom.
  cbn [touches drawFilledRect].
  change (inject_Z (screenWidth ÷ 2 - birdSize ÷ 2)) with 240.
  change (inject_Z centerX) with 250. change (inject_Z pipeWidth) with 50.
  change (inject_Z birdSize) with 20. change (inject_Z pipeGap) with 150.
  change (inject_Z screenHeight) with 500.
  rewrite !andb_true_iff, orb_true_iff.
  destruct (Qgeb_spec 250 (x p)), (Qleb_spec 250 (x p + 50)),
    (Qleb_spec (birdY g) (height p)),
    (Qgeb_spec (birdY g + 20) (height p + 150));
    split; intros H; try (intuition discriminate);
    try (exfalso; intuition lra);
    (split; [split; assumption |]);
    try (left; repeat split; lra); try (right; repeat split; lra).
Qed.

(** X16. For a pipe of a reachable state the collision test is true exactly
    when the pipe's span contains the bird's centre and the bird's drawn
    rectangle touches the pipe's drawn top or bottom block. *)
Theorem collision_is_touching (g : Game) (p : Pipe) :
  reachable g -> In p (pipes g) ->
  collides (birdY g) p = true <->
  (x p <= inject_Z centerX <= x p + inject_Z pipeWidth) /\
  (touches (drawBird g) (drawTop p) \/ touches (drawBird g) (drawBottom p)).
Proof.
  intros Hr Hin. apply collides_touches.
  - exact (reachable_inField g Hr).
  - pose proof (reachable_heights g p Hr Hin). lra.
Qed.

(** X17. When a running frame from a reachable state finds a pipe colliding
    with the bird, the phase becomes GameOver, the pipe is still in the list
    after the frame, and the picture of the new state contains the bird's
    rectangle and a block of that pipe that touch. *)
Theorem fatal_collision_is_drawn (g : Game) (i : Input) (q : Pipe) :
  reachable g -> phase g = Running -> In q (framePipes i g) ->
  collides (birdY (Update g i)) (movePipe q) = true ->
  let g' := Update g i in
  phase g' = GameOver /\
  In (stepPipe q) (pipes g') /\
  In (drawBird g') (Draw g') /\
  ((In (drawTop (stepPipe q)) (Draw g') /\
    touches (drawBird g') (drawTop (stepPipe q))) \/
   (In (drawBottom (stepPipe q)) (Draw g') /\
    touches (drawBird g') (drawBottom (stepPipe q)))).
Proof.
  intros Hr Hp Hin Hc g'.
  assert (Hr' : reachable g') by now constructor.
  assert (Hc' : collides (birdY g') (stepPipe q) = true)
    by (rewrite collides_stepPipe; exact Hc).
  assert (Hin' : In (stepPipe q) (pipes g')).
  { unfold g'. rewrite (Update_Running g i Hp), runFrame_pipes'.
    assert (Hm : In (stepPipe q) (map stepPipe (framePipes i g)))
      by now apply in_map.
    destruct (map stepPipe (framePipes i g)) as [| a rest];
      [inversion Hm |].
    unfold retirePipes.
    destruct (Qltb_spec (x a + inject_Z pipeWidth) 0) as [Hoff |];
      [| exact Hm].
    destruct Hm as [Ha | Hm]; [| exact Hm]. subst a. exfalso.
    unfold collides in Hc'. apply andb_true_iff in Hc' as [Hs _].
    apply andb_true_iff in Hs as [_ Hs].
    destruct (Qleb_spec (inject_Z centerX)
                (x (stepPipe q) + inject_Z pipeWidth)); [| discriminate].
    assert (0 < inject_Z centerX) by reflexivity. lra. }
  split; [now apply (collision_ends_session g i q) |].
  split; [exact Hin' |].
  split; [apply in_Draw; auto |].
  assert (Ht : touches (drawBird g') (drawTop (stepPipe q)) \/
               touches (drawBird g') (drawBottom (stepPipe q))).
  { apply (collides_touches g' (stepPipe q)).
    - exact (reachable_inField g' Hr').
    - pose proof (reachable_heights g' _ Hr' Hin'). lra.
    - exact Hc'. }
  destruct Ht as [Ht | Ht]; [left | right]; (split; [| exact Ht]);
    apply in_Draw; right; right; left; exists (stepPipe q); auto.
Qed.

Lemma framePipes_chain i g :
  reachable g ->
  chain (nextPipeSpawn (spawnStep i g) + inject_Z pipeSpeed) (framePipes i g).
Proof.
  intros Hr. destruct (reachable_exact g Hr) as [_ _ (_ & [Hlo _] & _) Hch _ _].
  rewrite spawnStep_nextPipeSpawn, framePipes_eq.
  destruct (Qleb_spec (nextPipeSpawn g) 0) as [Hle | Hgt]; intros j p Hj.
  - assert (H0 : nextPipeSpawn g == 0) by lra.
    rewrite (chain_spawn _ _ (draw i) Hch H0 j p Hj). ring.
  - rewrite (Hch j p Hj). ring.
Qed.

Lemma chain_filter_one c ps (f : Pipe -> bool) lo :
  chain c ps ->
  (forall p, In p ps -> f p = true -> lo <= x p /\ x p < lo + 250) ->
  (length (filter f ps) <= 1)%nat.
Proof.
  revert c. induction ps as [| a rest IH]; intros c Hc Hf; [simpl; lia |].
  cbn [filter]. destruct (f a) eqn:Ea.
  - assert (Hnone : filter f rest = []).
    { destruct (filter f rest) as [| p l] eqn:E; [reflexivity |]. exfalso.
      assert (Hp : In p (filter f rest)) by (rewrite E; now left).
      apply filter_In in Hp as [Hin Hfp].
      pose proof (chain_head c a rest p Hc Hin) as Hgap.
      destruct (Hf a (or_introl eq_refl) Ea) as [Ha1 Ha2].
      destruct (Hf p (or_intror Hin) Hfp) as [Hp1 Hp2]. lra. }
    rewrite Hnone. simpl. lia.
  - apply (IH c).
    + exact (chain_tl c (a :: rest) Hc).
    + intros p Hin. apply Hf. now right.
Qed.

(** X11. On a running frame from a reachable state at most one pipe passes the
    scoring test: the score stays or is incremented once. *)
Theorem score_rises_by_at_most_one (g : Game) (i : Input) :
  reachable g -> phase g = Running ->
  (length (crossers (framePipes i g)) <= 1)%nat /\
  (score (Update g i) = score g \/
   score (Update g i) = wrapInt (score g + 1)).
Proof.
  intros Hr Hp.
  assert (Hone : (length (crossers (framePipes i g)) <= 1)%nat).
  { unfold crossers.
    apply (chain_filter_one _ _ _ (inject_Z centerX - inject_Z pipeWidth)
             (framePipes_chain i g Hr)).
    intros p Hin Hc.
    assert (Hfl : flagged p).
    { pose proof (framePipes_flagged i g (reachable_flagged g Hr)) as Hq.
      rewrite Forall_forall in Hq. now apply Hq. }
    apply (crossing_first_frame p Hfl) in Hc as [H1 H2].
    change (inject_Z pipeSpeed) with 2 in H2. split; lra. }
  split; [exact Hone |].
  rewrite (Update_Running g i Hp), runFrame_score.
  destruct (crossers (framePipes i g)) as [| a [| b l]]; cbn in Hone.
  - now left.
  - now right.
  - lia.
Qed.

(** *** The numbers of a reachable state *)

(** X12. In a reachable state position and velocity are multiples of 1/2, the
    countdown and the pipe positions are even integers and the gap tops are
    integers, all in small ranges. *)
Theorem reachable_numbers_are_halves (g : Game) :
  reachable g ->
  (exists n : Z, 2 * birdY g == inject_Z n /\ (0 <= n <= 960)%Z) /\
  (exists n : Z, 2 * birdVelocity g == inject_Z n /\ (-12 <= n <= 961)%Z) /\
  (exists n : Z, nextPipeSpawn g == inject_Z (2 * n) /\ (0 <= n <= 250)%Z) /\
  (forall p, In p (pipes g) ->
     (exists n : Z, x p == inject_Z (2 * n) /\ (-25 <= n <= 249)%Z) /\
     (exists n : Z, height p = inject_Z n /\ (20 <= n <= 329)%Z)).
Proof.
  intros Hr.
  destruct (reachable_exact g Hr)
    as [[[ny Hy] Hyr] [[nv Hv] [Hvr _]] [[nc Hc] [Hcr Hcp]] Hch Hl Hh].
  assert (Hbound : forall q n lo hi,
             q == inject_Z n -> inject_Z lo <= q <= inject_Z hi ->
             (lo <= n <= hi)%Z).
  { intros q n lo hi E [H1 H2]. rewrite E in H1, H2.
    now rewrite <- !Zle_Qle in *. }
  split; [| split; [| split]].
  - exists ny. split; [exact Hy |]. apply (Hbound (2 * birdY g)); [exact Hy |].
    change (inject_Z 0) with 0. change (inject_Z 960) with 960. lra.
  - exists nv. split; [exact Hv |].
    apply (Hbound (2 * birdVelocity g)); [exact Hv |].
    change (inject_Z (-12)) with (-12). change (inject_Z 961) with 961.
    split; lra.
  - exists nc. split; [now rewrite inject_Z_mult |].
    apply (Hbound (nextPipeSpawn g * (1 # 2))).
    + rewrite Hc. field.
    + change (inject_Z 0) with 0. change (inject_Z 250) with 250. lra.
  - intros p Hin. split.
    + pose proof (reachable_pipes_on_screen g p Hr Hin) as [Hx1 Hx2].
      apply in_rev in Hin. apply In_nth_error in Hin as [j Hj].
      pose proof (Hch j p Hj) as Hx.
      exists (nc + 125 - 125 * Z.of_nat j)%Z.
      assert (E : x p == inject_Z (2 * (nc + 125 - 125 * Z.of_nat j))).
      { rewrite Hx, Hc. rewrite inject_Z_mult. unfold Z.sub.
        rewrite !inject_Z_plus, inject_Z_opp, inject_Z_mult.
        change (inject_Z 125) with 125. change (inject_Z 2) with 2. ring. }
      split; [exact E |].
      apply (Hbound (x p * (1 # 2))).
      * rewrite E, inject_Z_mult. change (inject_Z 2) with 2. field.
      * change (inject_Z (-25)) with (-25). change (inject_Z 249) with 249.
        lra.
    + rewrite Forall_forall in Hh. destruct (Hh p Hin) as [[n Hn] Hr2].
      exists n. split; [exact Hn |].
      apply (Hbound (height p)); [now rewrite Hn |].
      change (inject_Z 20) with 20. change (inject_Z 329) with 329. exact Hr2.
Qed.

(** ** C10: the frame that ends the session at floor or ceiling *)

Lemma In_retirePipes p ps : In p (retirePipes ps) -> In p ps.
Proof.
  destruct (retirePipes_cases ps) as [-> | ->]; [auto |].
  destruct ps; simpl; auto.
Qed.

Lemma collides_false_in_gap y p :
  overCentre p -> collides y p = false ->
  height p < y /\ y + inject_Z birdSize < height p + inject_Z pipeGap.
Proof.
  intros Hs Hc. rewrite (collides_in_span y p Hs) in Hc.
  apply orb_false_iff in Hc as [H1 H2].
  destruct (Qleb_spec y (height p)) as [| Hn1]; [discriminate |].
  destruct (Qgeb_spec (y + inject_Z birdSize) (height p + inject_Z pipeGap))
    as [| Hn2]; [discriminate |].
  split; now apply Qnot_le_lt.
Qed.

Lemma tracked_initGame : tracked initGame.
Proof. intros _ p []. Qed.

Lemma runFrame_tracked i g :
  gameOver g = false -> tracked g -> tracked (runFrame i g).
Proof.
  intros Hg Ht Hg' p' Hin' Hs'.
  rewrite runFrame_gameOver in Hg'.
  apply orb_false_iff in Hg' as [Hg' Hcol].
  apply orb_false_iff in Hg' as [Hout _].
  assert (Hy : birdY (runFrame i g)
               = birdY g + (birdVelocity (jump i g) + gravity)).
  { rewrite runFrame_birdY. now apply clampY_id. }
  rewrite runFrame_pipes' in Hin'. apply In_retirePipes in Hin'.
  apply in_map_iff in Hin' as [q [<- Hq]].
  assert (Hnc : collides (birdY (runFrame i g)) (movePipe q) = false).
  { destruct (collides (birdY (runFrame i g)) (movePipe q)) eqn:E;
      [| reflexivity].
    assert (Hex : existsb (fun p => collides (birdY (runFrame i g))
                                      (movePipe p)) (framePipes i g) = true)
      by (apply existsb_exists; now exists q).
    congruence. }
  rewrite <- collides_stepPipe in Hnc.
  destruct (collides_false_in_gap _ _ Hs' Hnc) as [Hlo Hhi].
  split; [exact Hlo |]. split; [exact Hhi |].
  intros j Hj. rewrite stepPipe_height in *. rewrite stepPipe_x in *.
  unfold overCentre in Hs'. rewrite stepPipe_x in Hs'.
  change (inject_Z pipeSpeed) with 2 in *.
  change (inject_Z centerX) with 250 in *.
  change (inject_Z pipeWidth) with 50 in *.
  destruct j as [| j].
  - change (inject_Z (Z.of_nat 0)) with 0. lra.
  - rewrite Nat2Z.inj_succ in *. unfold Z.succ in *.
    rewrite inject_Z_plus in *. change (inject_Z 1) with 1 in *.
    assert (Hj0 : 0 <= inject_Z (Z.of_nat j)).
    { change 0 with (inject_Z 0). rewrite <- Zle_Qle. lia. }
    set (J := inject_Z (Z.of_nat j)) in *.
    assert (Hqg : In q (pipes g)).
    { rewrite framePipes_eq in Hq.
      destruct (Qleb (nextPipeSpawn g) 0); [| exact Hq].
      apply in_app_or in Hq as [Hq | [<- | []]]; [exact Hq |].
      exfalso. cbn [x newPipe] in Hj.
      change (inject_Z screenWidth) with 500 in Hj. lra. }
    assert (Hsq : overCentre q).
    { unfold overCentre. change (inject_Z centerX) with 250.
      change (inject_Z pipeWidth) with 50. split; lra. }
    destruct (Ht Hg q Hqg Hsq) as (_ & _ & IH).
    specialize (IH j). change (inject_Z pipeSpeed) with 2 in IH.
    change (inject_Z centerX) with 250 in IH. fold J in IH.
    assert (IH' : J * birdVelocity g - J * (J - 1) * (1 # 4)
                  < birdY g - height q) by (apply IH; lra).
    rewrite runFrame_birdVelocity, Hy. rewrite Hy in Hlo.
    unfold jump in *. destruct (keySpace i);
      cbn [birdVelocity set_birdVelocity] in *;
      change (inject_Z jumpStrength) with (-6) in *; unfold gravity in *.
    + assert (Hneg : (J + 1) * (-6 + (1 # 2))
                     - (J + 1) * (J + 1 - 1) * (1 # 4) <= 0).
      { assert (HJJ : 0 <= J * J) by now apply Qmult_le_0_compat.
        assert (E : (J + 1) * (-6 + (1 # 2))
                    - (J + 1) * (J + 1 - 1) * (1 # 4)
                    == - (J * J) * (1 # 4) - J * (23 # 4) - (11 # 2)) by ring.
        rewrite E. lra. }
      lra.
    + assert (E : (J + 1) * (birdVelocity g + (1 # 2))
                  - (J + 1) * (J + 1 - 1) * (1 # 4)
                  == J * birdVelocity g - J * (J - 1) * (1 # 4)
                     + birdVelocity g + (1 # 2)) by ring.
      rewrite E. lra.
Qed.

Lemma Update_tracked g i : tracked g -> tracked (Update g i).
Proof.
  intros H. unfold Update. destruct (started g); cbn [negb].
  - destruct (gameOver g) eqn:Hg.
    + destruct (keyR i); [apply tracked_initGame | exact H].
    + now apply runFrame_tracked.
  - destruct (keySpace i); exact H.
Qed.

Lemma reachable_tracked g : reachable g -> tracked g.
Proof.
  induction 1 as [| g i _ IH];
    [apply tracked_initGame | now apply Update_tracked].
Qed.

(** No pipe crosses the centre on a frame in which a clamp fires. *)
Lemma clamp_frame_no_crossers g i :
  reachable g -> phase g = Running ->
  outOfField (birdY g + (birdVelocity (jump i g) + gravity)) = true ->
  crossers (framePipes i g) = [].
Proof.
  intros Hr Hp Hout.
  destruct (crossers (framePipes i g)) as [| q l] eqn:E; [reflexivity |].
  exfalso.
  assert (Hq : In q (crossers (framePipes i g))) by (rewrite E; now left).
  unfold crossers in Hq. apply filter_In in Hq as [Hin Hc].
  assert (Hfl : flagged q).
  { pose proof (framePipes_flagged i g (reachable_flagged g Hr)) as Hf.
    rewrite Forall_forall in Hf. now apply Hf. }
  apply (crossing_first_frame q Hfl) in Hc as [Hc1 Hc2].
  change (inject_Z centerX) with 250 in *.
  change (inject_Z pipeWidth) with 50 in *.
  change (inject_Z pipeSpeed) with 2 in *.
  assert (Hqg : In q (pipes g)).
  { rewrite framePipes_eq in Hin.
    destruct (Qleb (nextPipeSpawn g) 0); [| exact Hin].
    apply in_app_or in Hin as [Hin | [<- | []]]; [exact Hin |].
    exfalso. cbn [x newPipe] in Hc2.
    change (inject_Z screenWidth) with 500 in Hc2. lra. }
  apply phase_Running in Hp as [_ Hg].
  assert (Hs : overCentre q).
  { unfold overCentre. change (inject_Z centerX) with 250.
    change (inject_Z pipeWidth) with 50. split; lra. }
  destruct (reachable_tracked g Hr Hg q Hqg Hs) as (Hlo & Hhi & Hj).
  specialize (Hj 24%nat).
  change (inject_Z (Z.of_nat 24)) with 24 in Hj.
  change (inject_Z pipeSpeed) with 2 in Hj.
  change (inject_Z centerX) with 250 in Hj.
  change (inject_Z birdSize) with 20 in Hhi.
  change (inject_Z pipeGap) with 150 in Hhi.
  assert (Hv : 24 * birdVelocity g - 24 * (24 - 1) * (1 # 4)
               < birdY g - height q) by (apply Hj; lra).
  destruct (reachable_exact g Hr) as [_ (_ & [Hv6 _] & _) _ _ _ Hh].
  rewrite Forall_forall in Hh. destruct (Hh q Hqg) as [_ [Hh1 Hh2]].
  unfold outOfField in Hout. change (inject_Z floorY) with 480 in Hout.
  assert (Hjv : -6 <= birdVelocity (jump i g) /\
                birdVelocity (jump i g) <= birdVelocity g).
  { unfold jump. destruct (keySpace i); cbn [birdVelocity set_birdVelocity];
      change (inject_Z jumpStrength) with (-6); split; lra. }
  destruct Hjv as [Hj1 Hj2]. unfold gravity in Hout.
  destruct (Qgtb_spec (birdY g + (birdVelocity (jump i g) + (1 # 2))) 480)
    as [H | _]; [lra |].
  destruct (Qltb_spec (birdY g + (birdVelocity (jump i g) + (1 # 2))) 0)
    as [H | _]; [lra | discriminate].
Qed.

(** No pipe leaves the screen on such a frame either: the pipe behind the
    one that leaves crosses the centre in the same frame. *)
Lemma clamp_frame_no_retire g i :
  reachable g -> phase g = Running ->
  outOfField (birdY g + (birdVelocity (jump i g) + gravity)) = true ->
  retirePipes (map stepPipe (framePipes i g)) = map stepPipe (framePipes i g).
Proof.
  intros Hr Hp Hout.
  pose proof (clamp_frame_no_crossers g i Hr Hp Hout) as Hnone.
  pose proof (framePipes_chain i g Hr) as Hch.
  pose proof (framePipes_flagged i g (reachable_flagged g Hr)) as Hfl.
  assert (Hc0 : 0 <= nextPipeSpawn (spawnStep i g) + inject_Z pipeSpeed).
  { rewrite spawnStep_nextPipeSpawn.
    change (inject_Z pipeSpeed) with 2. change (inject_Z pipeSpacing) with 250.
    destruct (Qleb_spec (nextPipeSpawn g) 0) as [| Hn]; [lra |].
    apply Qnot_le_lt in Hn. lra. }
  destruct (framePipes i g) as [| q0 rest] eqn:E; [reflexivity |].
  cbn [map]. unfold retirePipes.
  destruct (Qltb_spec (x (stepPipe q0) + inject_Z pipeWidth) 0) as [Hoff | _];
    [| reflexivity].
  exfalso. rewrite stepPipe_x in Hoff.
  change (inject_Z pipeSpeed) with 2 in *.
  change (inject_Z pipeWidth) with 50 in *.
  destruct rest as [| q1 rest'].
  - pose proof (chain_last _ [] q0 Hch) as Hx. lra.
  - pose proof (chain_adjacent _ [] q0 q1 rest' Hch) as Hx.
    assert (Hq0 : -50 <= x q0).
    { assert (Hin : In q0 (pipes g)).
      { assert (Hin0 : In q0 (framePipes i g)) by (rewrite E; now left).
        rewrite framePipes_eq in Hin0.
        destruct (Qleb (nextPipeSpawn g) 0); [| exact Hin0].
        apply in_app_or in Hin0 as [Hin0 | [<- | []]]; [exact Hin0 |].
        exfalso. cbn [x newPipe] in Hoff.
        change (inject_Z screenWidth) with 500 in Hoff. lra. }
      destruct (reachable_exact g Hr) as [_ _ _ _ Hl _].
      rewrite Forall_forall in Hl. now apply Hl. }
    assert (Hcross : crossing (movePipe q1) = true).
    { apply crossing_first_frame.
      - rewrite Forall_forall in Hfl. apply Hfl. right. now left.
      - change (inject_Z centerX) with 250.
        change (inject_Z pipeWidth) with 50.
        change (inject_Z pipeSpeed) with 2. split; lra. }
    unfold crossers in Hnone. cbn [filter] in Hnone. rewrite Hcross in Hnone.
    destruct (crossing (movePipe q0)); discriminate.
Qed.

(** C10 (as amended). On a Running frame of a reachable state in which one
    of the two clamps fires, the phase becomes GameOver and the pipe stages
    of the frame still run: the spawn countdown is tested and decremented
    (and a pipe is spawned when it is due) and every pipe of the frame moves
    left by pipeSpeed.  On such a frame no pipe crosses the bird's centre
    and no pipe leaves the screen, so the scoring and retirement tests find
    nothing to do: the flags and the score stay as they were and no pipe is
    removed. *)
Theorem fatal_clamp_frame_moves_pipes (g : Game) (i : Input) :
  reachable g -> phase g = Running ->
  outOfField (birdY g + (birdVelocity (jump i g) + gravity)) = true ->
  let g' := Update g i in
  let fp := framePipes i g in
  phase g' = GameOver /\
  fp = (if Qleb (nextPipeSpawn g) 0
        then pipes g ++ [newPipe (draw i)] else pipes g) /\
  nextPipeSpawn g'
  = (if Qleb (nextPipeSpawn g) 0
     then inject_Z pipeSpacing else nextPipeSpawn g) - inject_Z pipeSpeed /\
  pipes g' = retirePipes (map stepPipe fp) /\
  pipes g' = map stepPipe fp /\
  map x (pipes g') = map (fun p => x p - 2) fp /\
  map passed (pipes g') = map passed fp /\
  crossers fp = [] /\
  score g' = score g.
Proof.
  intros Hr Hp Hout g' fp.
  pose proof (clamp_frame_no_crossers g i Hr Hp Hout) as Hnone.
  pose proof (clamp_frame_no_retire g i Hr Hp Hout) as Hkeep.
  fold fp in Hnone, Hkeep.
  assert (Hpipes : pipes g' = map stepPipe fp).
  { unfold g'. rewrite (Update_Running g i Hp), runFrame_pipes'. exact Hkeep. }
  split.
  { unfold g'. rewrite (Update_Running g i Hp). apply phase_GameOver. split.
    - rewrite runFrame_started. now apply phase_Running in Hp.
    - now apply runFrame_gameOver_clamp. }
  split; [apply framePipes_eq |].
  split.
  { unfold g'. rewrite (Update_Running g i Hp).
    now rewrite runFrame_nextPipeSpawn, spawnStep_nextPipeSpawn. }
  split; [now rewrite Hpipes, Hkeep |].
  split; [exact Hpipes |].
  split.
  { rewrite Hpipes, map_map. apply map_ext. intros p. apply stepPipe_x. }
  split.
  { rewrite Hpipes, map_map. apply map_ext_in. intros p Hin.
    rewrite stepPipe_passed.
    destruct (crossing (movePipe p)) eqn:Ec; [| apply orb_false_r].
    exfalso. assert (Hc : In p (crossers fp)) by (apply filter_In; now split).
    rewrite Hnone in Hc. inversion Hc. }
  split; [exact Hnone |].
  unfold g'. rewrite (Update_Running g i Hp), runFrame_score.
  fold fp. rewrite Hnone. reflexivity.
Qed.

Lemma fatal_clamp_frame_moves_pipes_witness :
  let g := run initGame (hover 18 ++ repeat idle 20) in
  (phase g = Running /\
   outOfField (birdY g + (birdVelocity (jump idle g) + gravity)) = true /\
   map (fun p => Qred (x p)) (pipes g) = [132; 382]) /\
  phase (Update g idle) = GameOver /\
  map x (pipes (Update g idle)) = map (fun p => x p - 2) (framePipes idle g) /\
  score (Update g idle) = score g.
Proof.
  intros g.
  assert (Hr : reachable g)
    by exact (run_reachable initGame (hover 18 ++ repeat idle 20) reach_init).
  assert (Hp : phase g = Running) by (vm_compute; reflexivity).
  assert (Ho : outOfField (birdY g + (birdVelocity (jump idle g) + gravity))
               = true) by (vm_compute; reflexivity).
  pose proof (fatal_clamp_frame_moves_pipes g idle Hr Hp Ho) as H.
  cbv zeta in H. destruct H as (H1 & _ & _ & _ & _ & H2 & _ & _ & H3).
  split; [split; [exact Hp | split; [exact Ho | vm_compute; reflexivity]] |].
  split; [exact H1 |]. split; [exact H2 | exact H3].
Defined.

(** C10 as stated fails in its consequence: there is no frame of the
    program on which a clamp fires and the score changes, and none on which
    a clamp fires and a pipe is retired. *)
Lemma clamp_frame_never_scores :
  ~ (exists g i,
       reachable g /\ phase g = Running /\
       outOfField (birdY g + (birdVelocity (jump i g) + gravity)) = true /\
       score (Update g i) <> score g) /\
  ~ (exists g i,
       reachable g /\ phase g = Running /\
       outOfField (birdY g + (birdVelocity (jump i g) + gravity)) = true /\
       (length (pipes (Update g i)) < length (framePipes i g))%nat).
Proof.
  split; intros (g & i & Hr & Hp & Hout & Hbad).
  - apply Hbad. rewrite (Update_Running g i Hp), runFrame_score.
    now rewrite (clamp_frame_no_crossers g i Hr Hp Hout).
  - rewrite (Update_Running g i Hp), runFrame_pipes' in Hbad.
    rewrite (clamp_frame_no_retire g i Hr Hp Hout), length_map in Hbad. lia.
Qed.

(** The first pipe of a session is spawned on the 251st running frame; a
    bird that reaches the floor on that very frame ends the session, and
    the pipe is there all the same, already moved once. *)
Example clamp_frame_spawns :
  let g := run initGame (hover 10 ++ repeat idle 20) in
  pipes g = [] /\ phase g = Running /\
  outOfField (birdY g + (birdVelocity (jump idle g) + gravity)) = true /\
  phase (Update g idle) = GameOver /\
  pipes (Update g idle) = [mkPipe (500 - 2) 150 false].
Proof. vm_compute. repeat split. Qed.

Lemma Forall_repeat {A} (P : A -> Prop) a n : P a -> Forall P (repeat a n).
Proof.
  intros H. apply Forall_forall. intros b Hb.
  apply repeat_spec in Hb. now subst.
Qed.

Lemma phase_transitions_witness :
  let g := Update initGame flap in
  phase g = Running /\ phase (Update g idle) = Running.
Proof.
  intros g. assert (Hr : reachable g) by (constructor; constructor).
  assert (Hp : phase g = Running) by reflexivity.
  split; [exact Hp |].
  rewrite (proj2 (proj2 (phase_transitions g idle Hr)) Hp). reflexivity.
Defined.

Lemma gravity_wins_witness :
  phase (run (Update initGame flap) (repeat idle 57)) = GameOver.
Proof.
  apply (gravity_wins (Update initGame flap) (repeat idle 57)).
  - constructor. constructor.
  - reflexivity.
  - apply Forall_repeat. split; reflexivity.
  - rewrite repeat_length. lia.
Defined.

Lemma held_jump_hits_ceiling_witness :
  phase (run (Update initGame flap) (repeat flap 88)) = GameOver.
Proof.
  apply (held_jump_hits_ceiling (Update initGame flap) (repeat flap 88)).
  - constructor. constructor.
  - reflexivity.
  - apply Forall_repeat. split; reflexivity.
  - rewrite repeat_length. lia.
Defined.

Lemma pipes_evenly_spaced_witness :
  let g := run initGame (hover 17) in
  map (fun p => Qred (x p)) (pipes g) = [218; 468] /\
  (length (pipes g) <= 3)%nat.
Proof.
  intros g. split; [vm_compute; reflexivity |].
  exact (proj1 (pipes_evenly_spaced g (run_reachable _ _ reach_init))).
Defined.

Lemma countdown_cycle_witness :
  let g := Update initGame flap in
  0 <= nextPipeSpawn g <= inject_Z screenWidth.
Proof.
  intros g.
  exact (proj1 (proj2 (countdown_cycle g idle
                         (reach_step _ _ reach_init)))).
Defined.

Lemma scored_flag_means_behind_witness :
  let g := run initGame (hover 22 ++ flap :: repeat idle 18) in
  let p := mkPipe (-50) 150 true in
  In p (pipes g) /\ forall y, collides y p = false.
Proof.
  intros g p.
  assert (Hin : In p (pipes g)) by (vm_compute; left; reflexivity).
  split; [exact Hin |].
  exact (proj1 (proj2 (scored_flag_means_behind g p
                         (run_reachable _ _ reach_init) Hin)) eq_refl).
Defined.

Lemma scoring_excludes_collision_witness :
  let p := mkPipe 198 100 false in
  crossing p = true /\ collides 50 p = false.
Proof.
  intros p. split; [reflexivity |].
  apply (scoring_excludes_collision p 50). reflexivity.
Defined.

Lemma retired_pipe_was_scored_witness :
  let g := run initGame (hover 22 ++ flap :: repeat idle 18) in
  let a := mkPipe (-52) 150 true in
  let rest := [mkPipe 198 150 true; mkPipe 448 150 false] in
  map stepPipe (framePipes idle g) = a :: rest /\
  pipes (Update g idle) = rest /\ passed a = true.
Proof.
  intros g a rest.
  assert (Hp : phase g = Running) by (vm_compute; reflexivity).
  assert (E : map stepPipe (framePipes idle g) = a :: rest)
    by (vm_compute; reflexivity).
  split; [exact E |].
  apply (proj1 (retired_pipe_was_scored g idle a rest
                  (run_reachable _ _ reach_init) Hp E)).
  reflexivity.
Defined.

Lemma score_bounded_by_frames_witness :
  (0 <= score (run initGame (hover 24)) <= 553)%Z.
Proof.
  apply (score_bounded_by_frames (hover 24)). vm_compute. discriminate.
Defined.

Lemma gap_is_passable_witness :
  let g := run initGame (hover 17) in
  let p := mkPipe 218 150 false in
  In p (pipes g) /\ collides 200 p = false /\ outOfField 200 = false.
Proof.
  intros g p.
  assert (Hin : In p (pipes g)) by (vm_compute; left; reflexivity).
  split; [exact Hin |].
  destruct (gap_is_passable g p 200 (run_reachable _ _ reach_init) Hin)
    as (H1 & H2 & _); [reflexivity | reflexivity |].
  split; assumption.
Defined.

Lemma score_rises_by_at_most_one_witness :
  let g := Update initGame flap in
  (length (crossers (framePipes idle g)) <= 1)%nat.
Proof.
  intros g.
  exact (proj1 (score_rises_by_at_most_one g idle
                  (reach_step _ _ reach_init) eq_refl)).
Defined.

Lemma reachable_numbers_are_halves_witness :
  exists n : Z, 2 * birdY initGame == inject_Z n /\ (0 <= n <= 960)%Z.
Proof.
  exact (proj1 (reachable_numbers_are_halves initGame reach_init)).
Defined.

Lemma Draw_messages_follow_phase_witness :
  In (DebugPrintAt textStartMessage startMessageX startMessageY)
     (Draw initGame) /\
  length (Draw initGame) = 4%nat.
Proof.
  pose proof (Draw_messages_follow_phase initGame reach_init)
    as (H1 & _ & H3 & _).
  split; [apply H1; reflexivity | exact H3].
Defined.

Lemma Draw_stays_on_screen_witness :
  onScreen 500 500 (drawBird initGame).
Proof.
  apply (Draw_stays_on_screen initGame 800 600 (drawBird initGame) reach_init).
  right. left. reflexivity.
Defined.

Lemma collision_is_touching_witness :
  let g := run initGame (hover 16 ++ repeat flap 19) in
  let p := mkPipe 226 150 false in
  In p (pipes g) /\ collides (birdY g) p = true /\
  (touches (drawBird g) (drawTop p) \/ touches (drawBird g) (drawBottom p)).
Proof.
  intros g p.
  assert (Hin : In p (pipes g)) by (vm_compute; left; reflexivity).
  assert (Hc : collides (birdY g) p = true) by (vm_compute; reflexivity).
  split; [exact Hin |]. split; [exact Hc |].
  exact (proj2 (proj1 (collision_is_touching g p
                         (run_reachable _ _ reach_init) Hin) Hc)).
Defined.

Lemma fatal_collision_is_drawn_witness :
  let g := run initGame (hover 16 ++ repeat flap 18) in
  let q := mkPipe 228 150 false in
  phase g = Running /\ In q (framePipes flap g) /\
  phase (Update g flap) = GameOver /\
  In (stepPipe q) (pipes (Update g flap)).
Proof.
  intros g q.
  assert (Hp : phase g = Running) by (vm_compute; reflexivity).
  assert (Hin : In q (framePipes flap g)) by (vm_compute; left; reflexivity).
  assert (Hc : collides (birdY (Update g flap)) (movePipe q) = true)
    by (vm_compute; reflexivity).
  destruct (fatal_collision_is_drawn g flap q
              (run_reachable _ _ reach_init) Hp Hin Hc) as (H1 & H2 & _).
  split; [exact Hp |]. split; [exact Hin |]. split; [exact H1 | exact H2].
Defined.
